(** * syncflux: collection and dispatch of Syncthing metrics to InfluxDB

    A shallow embedding of [syncflux.py].  The script is one module: three
    configuration dataclasses, the routine [main] that polls every
    configured Syncthing instance and sends the collected points to every
    configured InfluxDB, the validation of the command line, and the loop
    that repeats [main] over the configuration files.

    Modelling choices.
    - Python dictionaries that are copied or updated in place
      ([proto_tags], [proto_fields], [tags], [fields]) live in a store of
      objects, and a point holds references into it, so that aliasing is
      visible.
    - Exceptions and the interaction with the outside (clock, Syncthing
      REST client, InfluxDB client, standard output) are threaded through a
      state and error monad.  The answers of the outside are given by an
      oracle indexed by the number of interactions made so far.
    - Python floats (times, durations, percentages) are rationals: nothing
      proved below depends on rounding. *)

From Stdlib Require Import QArith Ascii String.
From stdpp Require Import gmap strings list fin_maps.

Open Scope string_scope.
Open Scope list_scope.
Open Scope nat_scope.

(** ** Values and dictionaries *)

(** The values stored in tag and field dictionaries: strings and numbers. *)
Inductive pyval :=
  | VStr (s : string)
  | VNum (q : Q).

Abbreviation dict := (gmap string pyval).

(** [d.update(other)] as a value: the entries of [other] win. *)
Definition updated (d other : dict) : dict := other ∪ d.

(** [d.update(pairs)] for a sequence of key/value pairs, applied in order. *)
Definition updated_pairs (d : dict) (pairs : list (string * string)) : dict :=
  foldl (λ acc kv, <[kv.1 := VStr kv.2]> acc) d pairs.

(** ** Configuration dataclasses *)

Record SyncthingConfiguration := {
  sync_name : string;
  sync_api_key : string;
  sync_host : string;
  sync_port : Z;
  sync_timeout : Q;
  sync_is_https : bool;
  sync_ssl_cert_file : option string;
  (** [tags] is handed to [dict.update], which reads it as a sequence of
      key/value pairs (the items of a mapping, in order). *)
  sync_tags : option (list (string * string));
}.

(** The keyword arguments of [syncthing.Syncthing]: [asdict] without
    [name] and [tags]. *)
Record ClientParams := {
  cp_api_key : string;
  cp_host : string;
  cp_port : Z;
  cp_timeout : Q;
  cp_is_https : bool;
  cp_ssl_cert_file : option string;
}.

Definition get_client_params (self : SyncthingConfiguration) : ClientParams :=
  {| cp_api_key := sync_api_key self;
     cp_host := sync_host self;
     cp_port := sync_port self;
     cp_timeout := sync_timeout self;
     cp_is_https := sync_is_https self;
     cp_ssl_cert_file := sync_ssl_cert_file self |}.

Record InfluxDbConfiguration := {
  influx_host : string;
  influx_port : Z;
  influx_ssl : bool;
  influx_verify_ssl : bool;
  influx_database : string;
  influx_username : string;
  influx_password : string;
}.

Record MeasurementConfiguration := {
  meas_devices : string;
  meas_folders : string;
}.

(** The two dictionaries of [AppConfiguration] keep their insertion order;
    they are lists of items, whose keys are pairwise distinct in a
    configuration that was loaded.  [_load_dict] with [add_name] stores
    every Syncthing configuration under its own name. *)
Record AppConfiguration := {
  syncthings : list (string * SyncthingConfiguration);
  influxes : list (string * InfluxDbConfiguration);
  measurements : MeasurementConfiguration;
}.

(** The parsed command line. *)
Record Args := {
  arg_config : option string;
  arg_config_dir : option string;
  arg_count : Z;
  arg_wait : Q;
  arg_silent : bool;
  arg_verbose : bool;
  arg_halt_on_send_error : bool;
}.

(** ** What Syncthing answers *)

(** An entry of [sync_cfg["defaults"]["folder"]["devices"]]. *)
Record FolderDevice := { fd_deviceID : string }.

(** An entry of [sync_cfg["devices"]]. *)
Record Device := { dev_deviceID : string; dev_name : string }.

(** An entry of [sync_cfg["folders"]]. *)
Record Folder := { folder_id : string; folder_label : string; folder_path : string }.

(** The part of [conn.system.config()] that [main] reads. *)
Record SyncCfg := {
  cfg_defaults_folder_devices : list FolderDevice;
  cfg_devices : list Device;
  cfg_folders : list Folder;
}.

(** A value of [conn.stats.device()]. *)
Record DeviceStats := { lastSeen : string }.

(** ** Exceptions, output and the outside world *)

Inductive exn :=
  | KeyError (key : string)          (* a dictionary has no such key *)
  | IndexError                       (* list index out of range *)
  | TypeError                        (* an operand of the wrong type *)
  | LibraryError (msg : string)      (* raised inside a client library *)
  | SystemExit (code : Z).

(** The lines printed by [info]. *)
Inductive message :=
  | MsgConnect (name : string)
  | MsgSending (n : nat) (influx_name : string)
  | MsgPassStarted (n : Z)
  | MsgPassWaiting (index : Z) (elapsed remaining : Q)
  | MsgPassElapsed (index : Z) (elapsed : Q)
  | MsgBlank.

(** A point as InfluxDB receives it. *)
Record PointValue := {
  pv_measurement : string;
  pv_tags : dict;
  pv_fields : dict;
}.

(** The outside world.  Every interaction takes the number of
    interactions made before it, so that answers may change over time. *)
Record World := {
  clock : nat → Q;
  new_syncthing : nat → ClientParams → option exn;
  system_config : nat → ClientParams → exn + SyncCfg;
  stats_device : nat → ClientParams → exn + gmap string DeviceStats;
  database_completion : nat → ClientParams → string → string → exn + Q;
  parse_datetime : string → exn + Q;
  new_influx : nat → InfluxDbConfiguration → option exn;
  write_points : nat → InfluxDbConfiguration → list PointValue → option exn;
  listdir : nat → option string → exn + list string;
  isfile : nat → string → bool;
  load_app_config : nat → string → exn + AppConfiguration;
}.

Abbreviation loc := nat.

(** A point as [main] builds it: [dict(measurement=..., tags=tags, fields=fields)]
    refers to the two dictionaries, it does not copy them. *)
Record Point := {
  measurement : string;
  tags : loc;
  fields : loc;
}.

(** What the program does to the outside, in order. *)
Inductive event :=
  | Print (m : message)
  | PrintExc (e : exn)
  | PrintErr (msg : string)
  | NewSyncthing (p : ClientParams)
  | NewInflux (c : InfluxDbConfiguration)
  | WritePoints (c : InfluxDbConfiguration) (pts : list PointValue)
  | Sleep (seconds : Q).

Record state := {
  heap : list dict;
  tick : nat;
  trace : list event;
}.

Definition initial_state : state := {| heap := []; tick := 0; trace := [] |}.

(** ** The state and error monad *)

Definition M (A : Type) : Type := state → (exn + A) * state.

#[global] Instance M_ret : MRet M := λ A a σ, (inr a, σ).

#[global] Instance M_bind : MBind M := λ A B k m σ,
  match m σ with
  | (inl e, σ') => (inl e, σ')
  | (inr a, σ') => k a σ'
  end.

Definition raise {A} (e : exn) : M A := λ σ, (inl e, σ).

(** [try: body except: handler] *)
Definition try_except {A} (body : M A) (handler : exn → M A) : M A := λ σ,
  match body σ with
  | (inl e, σ') => handler e σ'
  | r => r
  end.

Definition emit (ev : event) : M unit := λ σ,
  (inr (), {| heap := heap σ; tick := tick σ; trace := trace σ ++ [ev] |}).

(** An interaction with the outside: the oracle is asked at the current
    tick, and the tick advances. *)
Definition ask {A} (oracle : nat → A) : M A := λ σ,
  (inr (oracle (tick σ)), {| heap := heap σ; tick := S (tick σ); trace := trace σ |}).

Definition lift {A} (r : exn + A) : M A :=
  match r with
  | inl e => raise e
  | inr a => mret a
  end.

Definition lift_status (r : option exn) : M unit :=
  match r with
  | Some e => raise e
  | None => mret ()
  end.

(** ** Dictionaries in the store *)

Definition deref (h : list dict) (l : loc) : dict := default ∅ (h !! l).

(** A dictionary display or [copy.copy]: a new object. *)
Definition alloc (d : dict) : M loc := λ σ,
  (inr (length (heap σ)),
   {| heap := heap σ ++ [d]; tick := tick σ; trace := trace σ |}).

Definition read (l : loc) : M dict := λ σ, (inr (deref (heap σ) l), σ).

Definition modify (l : loc) (f : dict → dict) : M unit := λ σ,
  (inr (),
   {| heap := <[l := f (deref (heap σ) l)]> (heap σ);
      tick := tick σ; trace := trace σ |}).

(** [copy.copy(d)] *)
Definition copy (l : loc) : M loc := d ← read l; alloc d.

(** [d.update(other)] *)
Definition dict_update (l : loc) (other : dict) : M unit :=
  modify l (λ d, updated d other).

(** [d[key] = value] *)
Definition dict_setitem (l : loc) (key : string) (value : pyval) : M unit :=
  modify l (λ d, <[key := value]> d).

Definition resolve (h : list dict) (p : Point) : PointValue :=
  {| pv_measurement := measurement p;
     pv_tags := deref h (tags p);
     pv_fields := deref h (fields p) |}.

(** ** [main]: collecting the points *)

(** [info] prints its values unless [--silent] was given. *)
Definition info (args : Args) (m : message) : M unit :=
  if arg_silent args then mret () else emit (Print m).

(** [mapping[key]] for a key that may be absent. *)
Definition getitem {A} (m : gmap string A) (key : string) : M A :=
  match m !! key with
  | Some a => mret a
  | None => raise (KeyError key)
  end.

(** [items[0]] *)
Definition first_item {A} (items : list A) : M A :=
  match items with
  | a :: _ => mret a
  | [] => raise IndexError
  end.

(** An element of [remote_devices] or of [folders]: the two dictionary
    displays under ["tags"] and ["fields"].  They are only read. *)
Record Entity := {
  ent_tags : dict;
  ent_fields : dict;
}.

Definition device_entity (device : Device) (last_seen_since : Q) : Entity :=
  {| ent_tags := {[ "id" := VStr (dev_deviceID device);
                    "name" := VStr (dev_name device) ]};
     ent_fields := {[ "last_seen_since_sec" := VNum last_seen_since ]} |}.

Definition folder_entity (folder : Folder) (completion : Q) : Entity :=
  {| ent_tags := {[ "id" := VStr (folder_id folder);
                    "label" := VStr (folder_label folder);
                    "path" := VStr (folder_path folder) ]};
     ent_fields := {[ "completion" := VNum completion ]} |}.

Section Main.
Context (w : World) (args : Args) (config : AppConfiguration).

(** Lines 126-142: [for device in sync_cfg["devices"]]. *)
Fixpoint list_remote_devices (now : Q) (my_id : string) (proto_tags : loc)
    (device_stats : gmap string DeviceStats)
    (devices : list Device) (remote_devices : list Entity) : M (list Entity) :=
  match devices with
  | [] => mret remote_devices
  | device :: rest =>
      let device_id := dev_deviceID device in
      remote_devices ←
        (if decide (device_id = my_id) then
           dict_setitem proto_tags "my_name" (VStr (dev_name device));;
           mret remote_devices
         else
           stats ← getitem device_stats device_id;
           last_seen ← lift (parse_datetime w (lastSeen stats));
           let last_seen_since := (now - last_seen)%Q in
           mret (remote_devices ++ [device_entity device last_seen_since]));
      list_remote_devices now my_id proto_tags device_stats rest remote_devices
  end.

(** Lines 145-151: [for folder in sync_cfg["folders"]]. *)
Fixpoint list_folders (conn : ClientParams) (my_id : string)
    (cfg_folders : list Folder) (folders : list Entity) : M (list Entity) :=
  match cfg_folders with
  | [] => mret folders
  | folder :: rest =>
      completion ← ask (λ t, database_completion w t conn my_id (folder_id folder))
                   ≫= lift;
      list_folders conn my_id rest (folders ++ [folder_entity folder completion])
  end.

(** Lines 156-162 and 165-171: the two loops that create the points have
    the same body and differ in the measurement name. *)
Fixpoint create_points (meas : string) (proto_tags proto_fields : loc)
    (entities : list Entity) (points : list Point) : M (list Point) :=
  match entities with
  | [] => mret points
  | entity :: rest =>
      tags ← copy proto_tags;
      dict_update tags (ent_tags entity);;
      fields ← copy proto_fields;
      dict_update fields (ent_fields entity);;
      let point := {| measurement := meas; tags := tags; fields := fields |} in
      create_points meas proto_tags proto_fields rest (points ++ [point])
  end.

(** Lines 107-171: the body of [for sync in config.syncthings.values()]. *)
Definition collect (sync : SyncthingConfiguration) (points : list Point)
    : M (list Point) :=
  info args (MsgConnect (sync_name sync));;
  proto_tags ← alloc {[ "cfg_name" := VStr (sync_name sync) ]};
  match sync_tags sync with
  | Some (kv :: kvs) => modify proto_tags (λ d, updated_pairs d (kv :: kvs))
  | _ => mret ()
  end;;
  let conn_args := get_client_params sync in
  q_started ← ask (clock w);
  emit (NewSyncthing conn_args);;
  ask (λ t, new_syncthing w t conn_args) ≫= lift_status;;
  let conn := conn_args in
  now ← ask (clock w);
  sync_cfg ← ask (λ t, system_config w t conn) ≫= lift;
  my_device ← first_item (cfg_defaults_folder_devices sync_cfg);
  let my_id := fd_deviceID my_device in
  dict_setitem proto_tags "my_id" (VStr my_id);;
  device_stats ← ask (λ t, stats_device w t conn) ≫= lift;
  remote_devices ←
    list_remote_devices now my_id proto_tags device_stats (cfg_devices sync_cfg) [];
  folders ← list_folders conn my_id (cfg_folders sync_cfg) [];
  q_end ← ask (clock w);
  let q_elapsed := (q_end - q_started)%Q in
  proto_fields ← alloc {[ "q_elapsed" := VNum q_elapsed ]};
  points ← create_points (meas_devices (measurements config))
             proto_tags proto_fields remote_devices points;
  create_points (meas_folders (measurements config))
    proto_tags proto_fields folders points.

(** Line 106: [for sync in config.syncthings.values()]. *)
Fixpoint collect_all (syncs : list (string * SyncthingConfiguration))
    (points : list Point) : M (list Point) :=
  match syncs with
  | [] => mret points
  | (_, sync) :: rest =>
      points ← collect sync points;
      collect_all rest points
  end.

(** [config.influxes[influx_name]] *)
Definition influx_getitem (influx_name : string) : M InfluxDbConfiguration :=
  match list_find (λ kv, kv.1 = influx_name) (influxes config) with
  | Some (_, kv) => mret kv.2
  | None => raise (KeyError influx_name)
  end.

(** [client.write_points(points)]: the client serialises the
    dictionaries the points refer to. *)
Definition client_write_points (influx : InfluxDbConfiguration)
    (points : list Point) : M unit :=
  λ σ, let values := resolve (heap σ) <$> points in
       (emit (WritePoints influx values);;
        ask (λ t, write_points w t influx values) ≫= lift_status) σ.

(** Lines 176-186: [for influx_name, influx in config.influxes.items()]. *)
Fixpoint send_all (items : list (string * InfluxDbConfiguration))
    (points : list Point) : M unit :=
  match items with
  | [] => mret ()
  | (influx_name, _) :: rest =>
      info args (MsgSending (length points) influx_name);;
      try_except
        (influx ← influx_getitem influx_name;
         emit (NewInflux influx);;
         ask (λ t, new_influx w t influx) ≫= lift_status;;
         client_write_points influx points)
        (λ e, if arg_halt_on_send_error args then raise e
              else emit (PrintExc e));;
      send_all rest points
  end.

Definition main : M unit :=
  points ← collect_all (syncthings config) [];
  match points with
  | [] => mret ()
  | _ => send_all (influxes config) points
  end.

End Main.

(** ** The command line and the list of configuration files *)

(** [parser.error(message)]: the message goes to the error stream and the
    process exits with status 2. *)
Definition parser_error {A} (msg : string) : M A :=
  emit (PrintErr msg);; raise (SystemExit 2).

(** Lines 208-220: the checks made on the parsed arguments.  The result is
    [args] as the rest of the script sees it. *)
Definition check_args (args : Args) : M Args :=
  (if arg_silent args && arg_verbose args
   then parser_error "Cannot use --silent and --verbose at the same time."
   else mret ());;
  let args :=
    match arg_config args with
    | None =>
        {| arg_config := Some "syncflux.yml";
           arg_config_dir := arg_config_dir args;
           arg_count := arg_count args;
           arg_wait := arg_wait args;
           arg_silent := arg_silent args;
           arg_verbose := arg_verbose args;
           arg_halt_on_send_error := arg_halt_on_send_error args |}
    | Some _ => args
    end in
  (if bool_decide (arg_config args ≠ None) && bool_decide (arg_config_dir args ≠ None)
   then parser_error "You must give either --config or --config-dir (exactly one of them)"
   else mret ());;
  (if bool_decide (arg_count args = 0%Z)
   then parser_error "Test run count cannot be zero."
   else mret ());;
  (if Qle_bool (arg_wait args) 0
   then parser_error "Wait time must be positive."
   else mret ());;
  mret args.

(** [s.rfind(c)]: the index of the last [c] in [s], if any. *)
Fixpoint rfind_from (c : ascii) (s : string) (i : nat) (found : option nat)
    : option nat :=
  match s with
  | EmptyString => found
  | String a rest =>
      rfind_from c rest (S i) (if Ascii.eqb a c then Some i else found)
  end.

Definition rfind (c : ascii) (s : string) : option nat := rfind_from c s 0 None.

Definition has_non_dot (s : string) : bool :=
  existsb (λ a, negb (Ascii.eqb a "."%char)) (list_ascii_of_string s).

(** [os.path.splitext(p)] on POSIX: the extension starts at the last dot of
    the last path component, leading dots of the component apart. *)
Definition splitext (p : string) : string * string :=
  match rfind "."%char p with
  | None => (p, "")
  | Some dotIndex =>
      let filenameIndex := match rfind "/"%char p with None => 0 | Some i => S i end in
      if bool_decide (filenameIndex ≤ dotIndex)%nat
         && has_non_dot (substring filenameIndex (dotIndex - filenameIndex) p)
      then (substring 0 dotIndex p, substring dotIndex (String.length p - dotIndex) p)
      else (p, "")
  end.

(** [s.lower()] on the ASCII letters. *)
Definition lower_ascii (a : ascii) : ascii :=
  let n := nat_of_ascii a in
  if bool_decide (65 ≤ n ≤ 90)%nat then ascii_of_nat (n + 32) else a.

Definition lower (s : string) : string :=
  string_of_list_ascii (lower_ascii <$> list_ascii_of_string s).

(** [sorted(names)]: ascending in the order of strings. *)
Fixpoint insert_sorted (x : string) (l : list string) : list string :=
  match l with
  | [] => [x]
  | y :: rest => if String.leb x y then x :: l else y :: insert_sorted x rest
  end.

Definition sorted (l : list string) : list string := foldr insert_sorted [] l.

(** [os.path.join(dir, file_name)] for a file name without separator; a
    directory that is [None] is a [TypeError]. *)
Definition path_join (dir : option string) (file_name : string) : M string :=
  match dir with
  | None => raise TypeError
  | Some d =>
      if bool_decide (d = "") || bool_decide (rfind "/"%char d = Some (String.length d - 1))
      then mret (d +:+ file_name)
      else mret (d +:+ "/" +:+ file_name)
  end.

(** Lines 226-230: [for file_name in sorted(os.listdir(args.config_dir))]. *)
Fixpoint yml_files (config_dir : option string) (names : list string)
    (config_files : list string) : M (list string) :=
  match names with
  | [] => mret config_files
  | file_name :: rest =>
      let ext := (splitext file_name).2 in
      if bool_decide (lower ext = ".yml") then
        fpath ← path_join config_dir file_name;
        yml_files config_dir rest (config_files ++ [fpath])
      else yml_files config_dir rest config_files
  end.

(** Lines 222-230. *)
Definition config_files (w : World) (args : Args) : M (list string) :=
  match arg_config args with
  | Some (String a s) => mret [String a s]
  | _ =>
      names ← ask (λ t, listdir w t (arg_config_dir args)) ≫= lift;
      yml_files (arg_config_dir args) (sorted names) []
  end.

(** ** The passes *)

Section Passes.
Context (w : World) (args : Args).

(** Lines 239-243: [for config_file in config_files]. *)
Fixpoint run_config_files (config_files : list string) : M unit :=
  match config_files with
  | [] => mret ()
  | config_file :: rest =>
      is_file ← ask (λ t, isfile w t config_file);
      (if negb is_file
       then parser_error ("Cannot open " +:+ config_file)
       else mret ());;
      config ← ask (λ t, load_app_config w t config_file) ≫= lift;
      main w args config;;
      run_config_files rest
  end.

(** Lines 246-258: what follows the pass number [index] minus one, which
    took [elapsed] seconds; [index] is already incremented. *)
Definition after_pass (index : Z) (elapsed : Q) : M unit :=
  let last_one := bool_decide (0 < arg_count args)%Z
                  && bool_decide (index = arg_count args) in
  (if negb last_one then
     let remaining := (arg_wait args - elapsed)%Q in
     if negb (Qle_bool remaining 0) then
       (if negb (arg_silent args)
        then info args (MsgPassWaiting index elapsed remaining)
        else mret ());;
       emit (Sleep (arg_wait args))
     else mret ()
   else info args (MsgPassElapsed index elapsed));;
  info args MsgBlank.

(** Lines 235-258: the body of the [while] loop; returns the new [index]. *)
Definition pass (config_files : list string) (index : Z) : M Z :=
  (if bool_decide (arg_count args ≠ 1%Z)
   then info args (MsgPassStarted (index + 1))
   else mret ());;
  started ← ask (clock w);
  run_config_files config_files;;
  finished ← ask (clock w);
  let elapsed := (finished - started)%Q in
  let index := (index + 1)%Z in
  after_pass index elapsed;;
  mret index.

(** Lines 232-258: [while args.count < 0 or index < args.count].  With a
    negative count the loop never ends, so the model runs at most [fuel]
    passes and says whether the loop condition became false. *)
Fixpoint passes (fuel : nat) (config_files : list string) (index : Z) : M bool :=
  if bool_decide (arg_count args < 0)%Z || bool_decide (index < arg_count args)%Z then
    match fuel with
    | 0 => mret false
    | S fuel =>
        index ← pass config_files index;
        passes fuel config_files index
    end
  else mret true.

End Passes.

(** The script after [parse_args]. *)
Definition script (w : World) (fuel : nat) (parsed : Args) : M bool :=
  args ← check_args parsed;
  files ← config_files w args;
  passes w args fuel files 0.

(** ** Definitions used to state what [main] does *)

(** The events of [info]. *)
Definition info_events (args : Args) (m : message) : list event :=
  if arg_silent args then [] else [Print m].

(** The events of collecting one source, whatever the outcome. *)
Definition collect_events (args : Args) (sync : SyncthingConfiguration) : list event :=
  info_events args (MsgConnect (sync_name sync))
    ++ [NewSyncthing (get_client_params sync)].

(** [proto_tags] once the static tags of the source are merged in. *)
Definition static_proto_tags (sync : SyncthingConfiguration) : dict :=
  updated_pairs {[ "cfg_name" := VStr (sync_name sync) ]}
    (default [] (sync_tags sync)).

(** The keys of the static tags of a source. *)
Definition static_keys (sync : SyncthingConfiguration) : list string :=
  (default [] (sync_tags sync)).*1.

(** The objects that [create_points] adds to the store for [es], from the
    proto dictionaries [T] and [F]. *)
Definition point_objects (T F : dict) (es : list Entity) : list dict :=
  es ≫= (λ e, [updated T (ent_tags e); updated F (ent_fields e)]).

(** The points that [create_points] appends for [es] when the store holds
    [base] objects. *)
Fixpoint new_points (meas : string) (base : loc) (es : list Entity) : list Point :=
  match es with
  | [] => []
  | _ :: rest =>
      {| measurement := meas; tags := base; fields := S base |}
        :: new_points meas (S (S base)) rest
  end.

(** The value of the point made for [e]. *)
Definition point_value (meas : string) (T F : dict) (e : Entity) : PointValue :=
  {| pv_measurement := meas;
     pv_tags := updated T (ent_tags e);
     pv_fields := updated F (ent_fields e) |}.

(** The references a list of points holds. *)
Definition refs (points : list Point) : list loc :=
  points ≫= (λ p, [tags p; fields p]).

(** The events that construct a sink client or write to a sink. *)
Definition is_sink_event (ev : event) : Prop :=
  match ev with
  | NewInflux _ | WritePoints _ _ => True
  | _ => False
  end.

(** [proto_fields] as [collect] creates it. *)
Definition proto_fields_value (q : Q) : dict := {[ "q_elapsed" := VNum q ]}.

(** The entity made for a device, for some time since it was last seen. *)
Definition is_device_entity (d : Device) (e : Entity) : Prop :=
  ∃ last_seen_since, e = device_entity d last_seen_since.

(** The entity made for a folder, for some completion. *)
Definition is_folder_entity (f : Folder) (e : Entity) : Prop :=
  ∃ completion, e = folder_entity f completion.

(** The devices other than the own device. *)
Definition remote (my_id : string) (devices : list Device) : list Device :=
  filter (λ d, dev_deviceID d ≠ my_id) devices.

(** At tick [t] the source answers the topology query with [cfg], whose
    default folder lists the device [my_id] first. *)
Definition reported (w : World) (sync : SyncthingConfiguration) (t : nat)
    (cfg : SyncCfg) (my_id : string) : Prop :=
  system_config w t (get_client_params sync) = inr cfg ∧
  fd_deviceID <$> head (cfg_defaults_folder_devices cfg) = Some my_id.

(** A successful collection of [sync], from [σ] to [σ']: the objects added
    to the store and the points appended.  [T] is [proto_tags] and [q] is
    [q_elapsed] when the points are created. *)
Record collected (w : World) (config : AppConfiguration)
    (sync : SyncthingConfiguration) (σ σ' : state)
    (new : list Point) (T : dict) (q : Q) (devs folders : list Entity) : Prop := {
  collected_heap :
    heap σ' = heap σ ++ [T; proto_fields_value q]
                ++ point_objects T (proto_fields_value q) devs
                ++ point_objects T (proto_fields_value q) folders;
  collected_new :
    new = new_points (meas_devices (measurements config))
            (2 + length (heap σ)) devs
          ++ new_points (meas_folders (measurements config))
               (2 + length (heap σ) + 2 * length devs) folders;
  collected_elapsed :
    ∃ t_end, tick σ' = S t_end ∧ tick σ < t_end ∧
             q = (clock w t_end - clock w (tick σ))%Q;
  collected_source :
    ∃ cfg my_id,
      reported w sync (3 + tick σ) cfg my_id ∧
      (∀ k, k ≠ "my_name" →
         T !! k = <["my_id" := VStr my_id]> (static_proto_tags sync) !! k) ∧
      Forall2 is_device_entity (remote my_id (cfg_devices cfg)) devs ∧
      Forall2 is_folder_entity (cfg_folders cfg) folders;
}.

(** The values of the points of one source, as [main] hands them to the
    sinks: device points first, then folder points, all made from one
    [proto_tags] value [T] and one [q_elapsed] value [q]. *)
Definition source_points (w : World) (config : AppConfiguration)
    (sync : SyncthingConfiguration) (T : dict) (q : Q)
    (vs : list PointValue) : Prop :=
  ∃ devs folders cfg my_id,
    vs = (point_value (meas_devices (measurements config)) T
            (proto_fields_value q) <$> devs)
         ++ (point_value (meas_folders (measurements config)) T
               (proto_fields_value q) <$> folders) ∧
    (∃ t_start t_end, t_start < t_end ∧ q = (clock w t_end - clock w t_start)%Q) ∧
    (∃ t, reported w sync t cfg my_id) ∧
    (∀ k, k ≠ "my_name" →
       T !! k = <["my_id" := VStr my_id]> (static_proto_tags sync) !! k) ∧
    Forall2 is_device_entity (remote my_id (cfg_devices cfg)) devs ∧
    Forall2 is_folder_entity (cfg_folders cfg) folders.

(** The points [g] of one source in the store [h]. *)
Definition group_at (w : World) (config : AppConfiguration) (h : list dict)
    (sync : SyncthingConfiguration) (g : list Point) : Prop :=
  Forall (λ l, l < length h) (refs g) ∧
  ∃ T q, source_points w config sync T q (resolve h <$> g).

(** How the attempt on one sink ends. *)
Inductive sink_outcome :=
  | SinkWritten
  | SinkClientFailed (e : exn)
  | SinkWriteFailed (e : exn).

Definition outcome_error (o : sink_outcome) : option exn :=
  match o with
  | SinkWritten => None
  | SinkClientFailed e | SinkWriteFailed e => Some e
  end.

(** The number of interactions of an attempt. *)
Definition outcome_ticks (o : sink_outcome) : nat :=
  match o with
  | SinkClientFailed _ => 1
  | _ => 2
  end.

(** The outcome of an attempt on [influx] that starts at tick [t]. *)
Definition sink_outcome_at (w : World) (t : nat) (influx : InfluxDbConfiguration)
    (vals : list PointValue) : sink_outcome :=
  match new_influx w t influx with
  | Some e => SinkClientFailed e
  | None =>
      match write_points w (S t) influx vals with
      | Some e => SinkWriteFailed e
      | None => SinkWritten
      end
  end.

(** The outcomes of attempting every sink in turn, from tick [t] on. *)
Fixpoint sink_outcomes (w : World) (t : nat) (vals : list PointValue)
    (items : list (string * InfluxDbConfiguration)) : list sink_outcome :=
  match items with
  | [] => []
  | (_, influx) :: rest =>
      let o := sink_outcome_at w t influx vals in
      o :: sink_outcomes w (t + outcome_ticks o) vals rest
  end.

(** The events of one attempt: the client is constructed, and unless that
    fails the whole batch is written once. *)
Definition attempt_events (args : Args) (n : nat) (vals : list PointValue)
    (item : string * InfluxDbConfiguration) (o : sink_outcome) : list event :=
  info_events args (MsgSending n item.1) ++ [NewInflux item.2]
    ++ match o with
       | SinkClientFailed _ => []
       | _ => [WritePoints item.2 vals]
       end.

(** The report of a failed attempt. *)
Definition report_events (o : sink_outcome) : list event :=
  match outcome_error o with
  | Some e => [PrintExc e]
  | None => []
  end.

(** The first failure among outcomes: its index and its exception. *)
Fixpoint first_failure (outcomes : list sink_outcome) : option (nat * exn) :=
  match outcomes with
  | [] => None
  | o :: rest =>
      match outcome_error o with
      | Some e => Some (0, e)
      | None => prod_map S id <$> first_failure rest
      end
  end.

(** The state [n] interactions later, with the store [h] and the events
    [evs] added. *)
Definition later (σ : state) (h : list dict) (n : nat) (evs : list event) : state :=
  {| heap := h; tick := n + tick σ; trace := trace σ ++ evs |}.

(** Lines 126-171 of [main]: what [collect] does once the topology and the
    device statistics are there. *)
Definition collect_entities (w : World) (config : AppConfiguration)
    (sync : SyncthingConfiguration) (points : list Point)
    (q_started now : Q) (sync_cfg : SyncCfg) (my_id : string)
    (device_stats : gmap string DeviceStats) (proto_tags : loc) : M (list Point) :=
  remote_devices ←
    list_remote_devices w now my_id proto_tags device_stats (cfg_devices sync_cfg) [];
  folders ← list_folders w (get_client_params sync) my_id (cfg_folders sync_cfg) [];
  q_end ← ask (clock w);
  let q_elapsed := (q_end - q_started)%Q in
  proto_fields ← alloc {[ "q_elapsed" := VNum q_elapsed ]};
  points ← create_points (meas_devices (measurements config))
             proto_tags proto_fields remote_devices points;
  create_points (meas_folders (measurements config))
    proto_tags proto_fields folders points.

(** A device other than [my_id] for which [device_stats] has no entry. *)
Definition missing_stats (my_id : string) (device_stats : gmap string DeviceStats)
    (d : Device) : Prop :=
  dev_deviceID d ≠ my_id ∧ device_stats !! dev_deviceID d = None.

(** Why the entity part of [collect] can raise [e]: a remote device has no
    statistics, a time stamp cannot be parsed, or a completion query
    fails. *)
Definition entity_failure (w : World) (conn : ClientParams) (cfg : SyncCfg)
    (my_id : string) (device_stats : gmap string DeviceStats) (e : exn) : Prop :=
  (∃ d, d ∈ cfg_devices cfg ∧ missing_stats my_id device_stats d ∧
        e = KeyError (dev_deviceID d))
  ∨ (∃ s, parse_datetime w s = inl e)
  ∨ (∃ f t, f ∈ cfg_folders cfg ∧
            database_completion w t conn my_id (folder_id f) = inl e).

(** What the tag ["cfg_name"] of a point of [sync] is: the name of the
    source, unless the static tags of the source have that key; then it is
    a value the static tags give it. *)
Definition cfg_name_tag (sync : SyncthingConfiguration) (pv : PointValue) : Prop :=
  ("cfg_name" ∉ static_keys sync →
     pv_tags pv !! "cfg_name" = Some (VStr (sync_name sync))) ∧
  ("cfg_name" ∈ static_keys sync →
     ∃ v, ("cfg_name", v) ∈ default [] (sync_tags sync) ∧
          pv_tags pv !! "cfg_name" = Some (VStr v)).

(** ** Example configurations and worlds *)

Definition example_source (name host : string)
    (static : option (list (string * string))) : SyncthingConfiguration :=
  {| sync_name := name; sync_api_key := "key"; sync_host := host;
     sync_port := 8384; sync_timeout := 10; sync_is_https := false;
     sync_ssl_cert_file := None; sync_tags := static |}.

Definition example_sink (host : string) : InfluxDbConfiguration :=
  {| influx_host := host; influx_port := 443; influx_ssl := true;
     influx_verify_ssl := true; influx_database := "syncflux";
     influx_username := "user"; influx_password := "secret" |}.

Definition example_config (sources : list SyncthingConfiguration)
    (sinks : list string) : AppConfiguration :=
  {| syncthings := (λ s, (sync_name s, s)) <$> sources;
     influxes := (λ h, (h, example_sink h)) <$> sinks;
     measurements := {| meas_devices := "devices"; meas_folders := "folders" |} |}.

(** The defaults of the command line, with the given count and wait. *)
Definition example_args (count : Z) (wait : Q) (halt : bool) : Args :=
  {| arg_config := None; arg_config_dir := None; arg_count := count;
     arg_wait := wait; arg_silent := false; arg_verbose := false;
     arg_halt_on_send_error := halt |}.

(** The own device, two remote devices and one folder. *)
Definition example_topology : SyncCfg :=
  {| cfg_defaults_folder_devices := [ {| fd_deviceID := "ME" |} ];
     cfg_devices := [ {| dev_deviceID := "ME"; dev_name := "me" |};
                      {| dev_deviceID := "D1"; dev_name := "one" |};
                      {| dev_deviceID := "D2"; dev_name := "two" |} ];
     cfg_folders := [ {| folder_id := "f1"; folder_label := "Docs";
                         folder_path := "/docs" |} ] |}.

(** The own device alone. *)
Definition lonely_topology : SyncCfg :=
  {| cfg_defaults_folder_devices := [ {| fd_deviceID := "ME" |} ];
     cfg_devices := [ {| dev_deviceID := "ME"; dev_name := "me" |} ];
     cfg_folders := [] |}.

(** A topology whose default folder lists no device. *)
Definition headless_topology : SyncCfg :=
  {| cfg_defaults_folder_devices := [];
     cfg_devices := [ {| dev_deviceID := "D1"; dev_name := "one" |} ];
     cfg_folders := [] |}.

Definition stats_of (ids : list string) : gmap string DeviceStats :=
  list_to_map ((λ i, (i, {| lastSeen := "2020-01-01T00:00:00Z" |})) <$> ids).

(** A world where the clock advances one second per interaction, the
    topology depends on the host, every completion is 87 and every time
    stamp parses to 0; a sink fails when [sink_error] says so; every
    configuration file holds the source ["home"] and the sink ["good"]. *)
Definition example_world (topology : string → exn + SyncCfg)
    (stats : gmap string DeviceStats) (sink_error : string → option exn) : World :=
  {| clock := λ t, inject_Z (Z.of_nat t);
     new_syncthing := λ _ _, None;
     system_config := λ _ p, topology (cp_host p);
     stats_device := λ _ _, inr stats;
     database_completion := λ _ _ _ _, inr 87%Q;
     parse_datetime := λ _, inr 0%Q;
     new_influx := λ _ _, None;
     write_points := λ _ c _, sink_error (influx_host c);
     listdir := λ _ _, inr [];
     isfile := λ _ _, true;
     load_app_config := λ _ _,
       inr (example_config [example_source "home" "h1" None] ["good"]) |}.

(** The host ["down"] refuses connections. *)
Definition topology_by_host (host : string) : exn + SyncCfg :=
  if decide (host = "down") then inl (LibraryError "connection refused")
  else if decide (host = "lonely") then inr lonely_topology
  else if decide (host = "headless") then inr headless_topology
  else inr example_topology.

(** The sink ["bad"] rejects every write. *)
Definition sink_error_by_host (host : string) : option exn :=
  if decide (host = "bad") then Some (LibraryError "write failed") else None.

Definition healthy_world : World :=
  example_world topology_by_host (stats_of ["D1"; "D2"]) sink_error_by_host.

(** The statistics lack the device ["D2"]. *)
Definition partial_world : World :=
  example_world topology_by_host (stats_of ["D1"]) sink_error_by_host.

(** One source on a healthy host and one sink. *)
Definition home_config : AppConfiguration :=
  example_config [example_source "home" "h1" None] ["a"].

(** The collection of that source from the initial state. *)
Definition collected_home : (exn + list Point) * state :=
  collect_all healthy_world (example_args 1 60 false) home_config
    (syncthings home_config) [] initial_state.

(** The batches written, in order. *)
Definition written (evs : list event) : list (list PointValue) :=
  omap (λ ev, match ev with WritePoints _ pts => Some pts | _ => None end) evs.

(** The waits announced ([elapsed] and [remaining] of the message) and the
    seconds slept, in order. *)
Definition announced (evs : list event) : list (Q * Q) :=
  omap (λ ev, match ev with
              | Print (MsgPassWaiting _ elapsed remaining) => Some (elapsed, remaining)
              | _ => None
              end) evs.

Definition slept (evs : list event) : list Q :=
  omap (λ ev, match ev with Sleep seconds => Some seconds | _ => None end) evs.

(** ** Definitions used to state further properties *)

(** The entity that the device loop makes for [d]: the statistics have an
    entry for [d], its time stamp parses, and the field is the time from
    then to [now]. *)
Definition device_entity_of (w : World) (now : Q)
    (device_stats : gmap string DeviceStats) (d : Device) (e : Entity) : Prop :=
  ∃ st last_seen,
    device_stats !! dev_deviceID d = Some st ∧
    parse_datetime w (lastSeen st) = inr last_seen ∧
    e = device_entity d (now - last_seen).

(** The entity that the folder loop makes for [f]: the completion is what
    the query for the own device and [f] answered. *)
Definition folder_entity_of (w : World) (conn : ClientParams) (my_id : string)
    (f : Folder) (e : Entity) : Prop :=
  ∃ t completion,
    database_completion w t conn my_id (folder_id f) = inr completion ∧
    e = folder_entity f completion.

(** The name of the last listed device that has the id [my_id]. *)
Definition own_name (my_id : string) (devices : list Device) : option string :=
  last (dev_name <$> filter (λ d, dev_deviceID d = my_id) devices).

(** [proto_tags] after the device loop. *)
Definition with_own_name (my_id : string) (devices : list Device) (T : dict) : dict :=
  match own_name my_id devices with
  | Some n => <["my_name" := VStr n]> T
  | None => T
  end.

(** The point of the remote device [d]: measurement, the three tags that
    identify it, and its two fields. *)
Definition device_point (w : World) (config : AppConfiguration) (now q : Q)
    (device_stats : gmap string DeviceStats) (my_id : string)
    (d : Device) (pv : PointValue) : Prop :=
  pv_measurement pv = meas_devices (measurements config) ∧
  pv_tags pv !! "id" = Some (VStr (dev_deviceID d)) ∧
  pv_tags pv !! "name" = Some (VStr (dev_name d)) ∧
  pv_tags pv !! "my_id" = Some (VStr my_id) ∧
  ∃ st last_seen,
    device_stats !! dev_deviceID d = Some st ∧
    parse_datetime w (lastSeen st) = inr last_seen ∧
    pv_fields pv = {[ "last_seen_since_sec" := VNum (now - last_seen);
                      "q_elapsed" := VNum q ]}.

(** The point of the folder [f]. *)
Definition folder_point (w : World) (config : AppConfiguration) (q : Q)
    (conn : ClientParams) (my_id : string) (f : Folder) (pv : PointValue) : Prop :=
  pv_measurement pv = meas_folders (measurements config) ∧
  pv_tags pv !! "id" = Some (VStr (folder_id f)) ∧
  pv_tags pv !! "label" = Some (VStr (folder_label f)) ∧
  pv_tags pv !! "path" = Some (VStr (folder_path f)) ∧
  pv_tags pv !! "my_id" = Some (VStr my_id) ∧
  ∃ t completion,
    database_completion w t conn my_id (folder_id f) = inr completion ∧
    pv_fields pv = {[ "completion" := VNum completion; "q_elapsed" := VNum q ]}.

(** The lines of [info]. *)
Definition is_print (ev : event) : Prop :=
  match ev with
  | Print _ => True
  | _ => False
  end.

(** A computation whose events all satisfy [P], whatever the state it
    starts from and however it ends. *)
Definition emits (P : event → Prop) {A} (m : M A) : Prop :=
  ∀ σ, ∃ evs, trace (m σ).2 = trace σ ++ evs ∧ Forall P evs.

(** [args] once [check_args] has stored the default configuration file. *)
Definition defaulted (args : Args) : Args :=
  {| arg_config := Some (default "syncflux.yml" (arg_config args));
     arg_config_dir := arg_config_dir args;
     arg_count := arg_count args;
     arg_wait := arg_wait args;
     arg_silent := arg_silent args;
     arg_verbose := arg_verbose args;
     arg_halt_on_send_error := arg_halt_on_send_error args |}.

(** The state after a line on the error stream. *)
Definition complained (σ : state) (msg : string) : state :=
  {| heap := heap σ; tick := tick σ; trace := trace σ ++ [PrintErr msg] |}.

(** The state in which a pass starts to process the configuration files:
    the pass is announced unless the count is 1, and the clock is read. *)
Definition pass_started (args : Args) (index : Z) (σ : state) : state :=
  {| heap := heap σ; tick := S (tick σ);
     trace := trace σ ++ if bool_decide (arg_count args ≠ 1%Z)
                         then info_events args (MsgPassStarted (index + 1))
                         else [] |}.

(** A world like [healthy_world] in which no configuration file exists. *)
Definition no_file_world : World :=
  {| clock := clock healthy_world;
     new_syncthing := new_syncthing healthy_world;
     system_config := system_config healthy_world;
     stats_device := stats_device healthy_world;
     database_completion := database_completion healthy_world;
     parse_datetime := parse_datetime healthy_world;
     new_influx := new_influx healthy_world;
     write_points := write_points healthy_world;
     listdir := listdir healthy_world;
     isfile := λ _ _, false;
     load_app_config := load_app_config healthy_world |}.

(** ** Loading the dictionaries of the configuration *)

(** [result[name] = v] on a dictionary kept as the list of its items: an
    existing key keeps its place, a new key goes last. *)
Definition setitem {A} (result : list (string * A)) (name : string) (v : A)
    : list (string * A) :=
  if bool_decide (name ∈ result.*1)
  then (λ kv, if bool_decide (kv.1 = name) then (name, v) else kv) <$> result
  else result ++ [(name, v)].

Section LoadDict.
(** The values of the YAML mappings, with the strings among them, and the
    loader [dest_cls.scm_load_from_dict] of the destination class. *)
Context {V A : Type} (str : string → V).
Context (scm_load_from_dict : gmap string V → exn + A).

(** The keyword arguments that the loop body builds for one item. *)
Definition load_arguments (add_name : bool) (name : string) (value : gmap string V)
    : gmap string V :=
  let arguments := value ∪ ∅ in
  if add_name then <["name" := str name]> arguments else arguments.

(** The loop of [_load_dict] over the items of [props_dict]. *)
Fixpoint load_items (items : list (string * gmap string V)) (add_name : bool)
    (result : list (string * A)) : exn + list (string * A) :=
  match items with
  | [] => inr result
  | (name, value) :: rest =>
      match scm_load_from_dict (load_arguments add_name name value) with
      | inl e => inl e
      | inr v => load_items rest add_name (setitem result name v)
      end
  end.

Definition _load_dict (props_dict : list (string * gmap string V)) (add_name : bool)
    : exn + list (string * A) :=
  load_items props_dict add_name [].

End LoadDict.

(** The loader of the example: a source is made of the strings under
    [name] and [host]; an entry without a host is refused. *)
Definition example_loader (arguments : dict) : exn + SyncthingConfiguration :=
  match arguments !! "name", arguments !! "host" with
  | Some (VStr name), Some (VStr host) => inr (example_source name host None)
  | _, _ => inl TypeError
  end.

Definition example_props : list (string * dict) :=
  [ ("home", {[ "host" := VStr "h1" ]});
    ("attic", {[ "host" := VStr "lonely"; "name" := VStr "cellar" ]}) ].

(** The points of the source ["home"]. *)
Definition home_points : list Point :=
  [ {| measurement := "devices"; tags := 2; fields := 3 |};
    {| measurement := "devices"; tags := 4; fields := 5 |};
    {| measurement := "folders"; tags := 6; fields := 7 |} ].

Definition home_collection : (exn + list Point) * state :=
  collect healthy_world (example_args 1 60 false) home_config
    (example_source "home" "h1" None) [] initial_state.

(** * Proofs *)

(** ** Running the monad *)

Lemma run_bind {A B} (m : M A) (k : A → M B) σ :
  (m ≫= k) σ = match m σ with
               | (inl e, σ') => (inl e, σ')
               | (inr a, σ') => k a σ'
               end.
Proof. reflexivity. Qed.

Lemma run_ret {A} (a : A) σ : (mret a : M A) σ = (inr a, σ).
Proof. reflexivity. Qed.

Lemma run_raise {A} e σ : (raise e : M A) σ = (inl e, σ).
Proof. reflexivity. Qed.

Lemma state_eta σ : {| heap := heap σ; tick := tick σ; trace := trace σ |} = σ.
Proof. by destruct σ. Qed.

Lemma run_info args m σ :
  info args m σ =
  (inr (), {| heap := heap σ; tick := tick σ;
              trace := trace σ ++ info_events args m |}).
Proof.
  unfold info, info_events. destruct (arg_silent args); cbn; [|done].
  by rewrite run_ret, app_nil_r, state_eta.
Qed.

Lemma run_ask {A} (o : nat → A) σ :
  ask o σ = (inr (o (tick σ)),
             {| heap := heap σ; tick := S (tick σ); trace := trace σ |}).
Proof. reflexivity. Qed.

Lemma run_ask_lift {A} (o : nat → exn + A) σ :
  (ask o ≫= lift) σ =
  (o (tick σ), {| heap := heap σ; tick := S (tick σ); trace := trace σ |}).
Proof. rewrite run_bind, run_ask. by destruct (o (tick σ)). Qed.

Lemma run_ask_lift_status (o : nat → option exn) σ :
  (ask o ≫= lift_status) σ =
  (match o (tick σ) with Some e => inl e | None => inr () end,
   {| heap := heap σ; tick := S (tick σ); trace := trace σ |}).
Proof. rewrite run_bind, run_ask. by destruct (o (tick σ)). Qed.

Lemma run_emit ev σ :
  emit ev σ = (inr (), {| heap := heap σ; tick := tick σ; trace := trace σ ++ [ev] |}).
Proof. reflexivity. Qed.

Lemma run_alloc d σ :
  alloc d σ = (inr (length (heap σ)),
               {| heap := heap σ ++ [d]; tick := tick σ; trace := trace σ |}).
Proof. reflexivity. Qed.

Lemma run_modify l f σ :
  modify l f σ = (inr (), {| heap := <[l := f (deref (heap σ) l)]> (heap σ);
                             tick := tick σ; trace := trace σ |}).
Proof. reflexivity. Qed.

(** ** The store *)

Lemma deref_app_l h1 h2 l : l < length h1 → deref (h1 ++ h2) l = deref h1 l.
Proof. intros. unfold deref. by rewrite lookup_app_l. Qed.

Lemma deref_middle h d k : deref (h ++ d :: k) (length h) = d.
Proof. unfold deref. by rewrite list_lookup_middle. Qed.

Lemma insert_last (h : list dict) d d' : <[length h := d']> (h ++ [d]) = h ++ [d'].
Proof. rewrite insert_app_r_alt by lia. by rewrite Nat.sub_diag. Qed.

(** [new = copy.copy(old); new.update(other)] adds one object to the store
    and touches no other. *)
Lemma run_copy_update {B} l other (k : loc → M B) σ :
  (new ← copy l; dict_update new other;; k new) σ =
  k (length (heap σ))
    {| heap := heap σ ++ [updated (deref (heap σ) l) other];
       tick := tick σ; trace := trace σ |}.
Proof.
  unfold copy, dict_update, modify, alloc, read.
  rewrite !run_bind. cbn. by rewrite deref_middle, insert_last.
Qed.

Lemma deref_insert_eq (h : list dict) l d : l < length h → deref (<[l := d]> h) l = d.
Proof. intros. unfold deref. by rewrite list_lookup_insert_eq. Qed.

Lemma insert_deref (h : list dict) l : <[l := deref h l]> h = h.
Proof.
  unfold deref. destruct (h !! l) as [d|] eqn:E; cbn.
  - by apply list_insert_id.
  - apply list_insert_ge. by apply lookup_ge_None.
Qed.

Lemma length_point_objects T F es : length (point_objects T F es) = 2 * length es.
Proof.
  unfold point_objects. induction es as [|e es IH]; [done|].
  cbn in *. lia.
Qed.

Lemma refs_app ps qs : refs (ps ++ qs) = refs ps ++ refs qs.
Proof. unfold refs. apply bind_app. Qed.

Lemma refs_new_points meas es : ∀ base,
  refs (new_points meas base es) = seq base (2 * length es).
Proof.
  induction es as [|e es IH]; intros base; [done|].
  cbn [new_points length]. replace (2 * S (length es)) with (S (S (2 * length es))) by lia.
  cbn [seq]. rewrite <- IH. reflexivity.
Qed.

Lemma resolve_new_points meas T F es : ∀ h rest,
  resolve (h ++ point_objects T F es ++ rest) <$> new_points meas (length h) es
  = point_value meas T F <$> es.
Proof.
  induction es as [|e es IH]; intros h rest; [done|].
  cbn [new_points fmap list_fmap]. f_equal.
  - unfold resolve, point_value. cbn. f_equal.
    + apply deref_middle.
    + rewrite (cons_middle _ h), (assoc_L (++)).
      replace (S (length h)) with (length (h ++ [updated T (ent_tags e)]))
        by (rewrite length_app; cbn; lia).
      apply deref_middle.
  - specialize (IH (h ++ [updated T (ent_tags e); updated F (ent_fields e)]) rest).
    rewrite length_app in IH. cbn [length] in IH.
    replace (length h + 2) with (S (S (length h))) in IH by lia.
    rewrite <- IH. unfold point_objects. cbn. by rewrite <- !(assoc_L (++)).
Qed.

Lemma resolve_prefix h h' ps :
  h `prefix_of` h' → Forall (λ l, l < length h) (refs ps) →
  resolve h' <$> ps = resolve h <$> ps.
Proof.
  intros [k ->]. induction ps as [|p ps IH]; [done|].
  cbn. intros Hrefs. apply Forall_cons in Hrefs as [Ht Hrefs].
  apply Forall_cons in Hrefs as [Hf Hrefs].
  rewrite IH by done. f_equal. unfold resolve. by rewrite !deref_app_l.
Qed.

Lemma lookup_unique_key {A} (l : list (string * A)) k v1 v2 :
  NoDup l.*1 → (k, v1) ∈ l → (k, v2) ∈ l → v1 = v2.
Proof.
  induction l as [|[k' v'] l IH]; intros Hnd H1 H2; [by apply elem_of_nil in H1|].
  cbn in Hnd. apply NoDup_cons in Hnd as [Hk Hnd].
  apply elem_of_cons in H1 as [H1|H1]; apply elem_of_cons in H2 as [H2|H2].
  - congruence.
  - injection H1 as -> ->. destruct Hk. apply list_elem_of_fmap. by exists (k', v2).
  - injection H2 as -> ->. destruct Hk. apply list_elem_of_fmap. by exists (k', v1).
  - by apply IH.
Qed.

Section MainProofs.
Context (w : World) (args : Args) (config : AppConfiguration).

(** [create_points] never fails; it appends one point per entity, and
    the store grows by two objects per entity. *)
Lemma create_points_run meas pt pf es : ∀ points σ,
  pt < length (heap σ) → pf < length (heap σ) →
  create_points meas pt pf es points σ =
    (inr (points ++ new_points meas (length (heap σ)) es),
     {| heap := heap σ
                  ++ point_objects (deref (heap σ) pt) (deref (heap σ) pf) es;
        tick := tick σ; trace := trace σ |}).
Proof.
  induction es as [|e es IH]; intros points σ Hpt Hpf.
  - cbn. by rewrite !app_nil_r, state_eta.
  - cbn [create_points]. rewrite run_copy_update, run_copy_update.
    rewrite IH by (cbn; rewrite !length_app; cbn; lia).
    cbn. rewrite !length_app. cbn.
    rewrite !deref_app_l by (rewrite ?length_app; cbn; lia).
    rewrite <- !(assoc_L (++)). cbn.
    replace (length (heap σ) + 1 + 1) with (S (S (length (heap σ)))) by lia.
    by replace (length (heap σ) + 1) with (S (length (heap σ))) by lia.
Qed.

Lemma list_remote_devices_run now my_id pt stats devices : ∀ acc σ r σ',
  list_remote_devices w now my_id pt stats devices acc σ = (r, σ') →
  tick σ' = tick σ ∧ trace σ' = trace σ ∧
  (∃ T, heap σ' = <[pt := T]> (heap σ) ∧
        ∀ k, k ≠ "my_name" → T !! k = deref (heap σ) pt !! k) ∧
  match r with
  | inr res => ∃ new, res = acc ++ new ∧
                 Forall2 is_device_entity (remote my_id devices) new
  | inl _ => True
  end.
Proof.
  induction devices as [|d devices IH]; intros acc σ r σ' Hrun.
  - cbn in Hrun. rewrite run_ret in Hrun. injection Hrun as <- <-.
    repeat split; [|by exists []; rewrite app_nil_r].
    exists (deref (heap σ) pt). by rewrite insert_deref.
  - cbn [list_remote_devices] in Hrun. rewrite run_bind in Hrun.
    unfold remote. destruct (decide (dev_deviceID d = my_id)) as [Heq|Hne].
    + rewrite filter_cons_False by (intros Hn; exact (Hn Heq)).
      rewrite run_bind in Hrun. unfold dict_setitem in Hrun.
      rewrite run_modify, run_ret in Hrun.
      apply IH in Hrun as (Htick & Htrace & (T & Hheap & HT) & Hr). cbn in *.
      repeat split; [done..| |done].
      exists T. split.
      * by rewrite Hheap, list_insert_insert_eq.
      * intros k Hk. rewrite HT by done.
        destruct (decide (pt < length (heap σ))).
        -- rewrite deref_insert_eq by done. by rewrite lookup_insert_ne.
        -- by rewrite list_insert_ge by lia.
    + rewrite filter_cons_True by done.
      rewrite run_bind in Hrun. unfold getitem in Hrun.
      destruct (stats !! dev_deviceID d) as [st|].
      2:{ rewrite run_raise in Hrun. injection Hrun as <- <-.
          repeat split. exists (deref (heap σ) pt). by rewrite insert_deref. }
      rewrite run_ret, run_bind in Hrun.
      destruct (parse_datetime w (lastSeen st)) as [e|ls]; cbn in Hrun.
      { injection Hrun as <- <-.
        repeat split. exists (deref (heap σ) pt). by rewrite insert_deref. }
      apply IH in Hrun as (Htick & Htrace & HT & Hr).
      repeat split; [done..|].
      destruct r as [|res]; [done|].
      destruct Hr as (new & -> & Hnew).
      exists (device_entity d (now - ls)%Q :: new). split.
      * by rewrite <- (assoc_L (++)).
      * constructor; [by eexists|done].
Qed.

Lemma list_folders_run conn my_id fs : ∀ acc σ r σ',
  list_folders w conn my_id fs acc σ = (r, σ') →
  heap σ' = heap σ ∧ trace σ' = trace σ ∧ tick σ ≤ tick σ' ∧
  match r with
  | inr res => ∃ new, res = acc ++ new ∧ Forall2 is_folder_entity fs new
  | inl _ => True
  end.
Proof.
  induction fs as [|f fs IH]; intros acc σ r σ' Hrun.
  - cbn in Hrun. rewrite run_ret in Hrun. injection Hrun as <- <-.
    repeat split; [lia|by exists []; rewrite app_nil_r].
  - cbn [list_folders] in Hrun. rewrite run_bind, run_ask_lift in Hrun.
    destruct (database_completion w (tick σ) conn my_id (folder_id f)) as [e|c].
    { injection Hrun as <- <-. cbn. repeat split. lia. }
    apply IH in Hrun as (Hheap & Htrace & Htick & Hr). cbn in *.
    repeat split; [done..|lia|].
    destruct r as [|res]; [done|].
    destruct Hr as (new & -> & Hnew).
    exists (folder_entity f c :: new). split.
    + by rewrite <- (assoc_L (++)).
    + constructor; [by eexists|done].
Qed.
Lemma run_static_tags sync h t tr :
  match sync_tags sync with
  | Some (kv :: kvs) => modify (length h) (λ d, updated_pairs d (kv :: kvs))
  | _ => mret ()
  end {| heap := h ++ [{[ "cfg_name" := VStr (sync_name sync) ]}];
         tick := t; trace := tr |} =
  (inr (), {| heap := h ++ [static_proto_tags sync]; tick := t; trace := tr |}).
Proof.
  unfold static_proto_tags.
  destruct (sync_tags sync) as [[|kv kvs]|]; [done| |done].
  rewrite run_modify. cbn [heap tick trace]. by rewrite deref_middle, insert_last.
Qed.

Lemma collect_run sync points σ r σ' :
  collect w args config sync points σ = (r, σ') →
  trace σ' = trace σ ++ collect_events args sync ∧
  heap σ `prefix_of` heap σ' ∧
  match r with
  | inr pts => ∃ new T q devs folders,
      pts = points ++ new ∧ collected w config sync σ σ' new T q devs folders
  | inl _ => True
  end.
Proof.
  unfold collect, collect_events. intros H.
  rewrite run_bind, run_info in H. rewrite run_bind, run_alloc in H.
  cbn [heap tick trace] in H.
  rewrite run_bind, run_static_tags in H.
  rewrite run_bind, run_ask in H. rewrite run_bind, run_emit in H.
  cbn [heap tick trace] in H.
  rewrite run_bind, run_ask_lift_status in H. cbn [heap tick trace] in H.
  destruct (new_syncthing w (S (tick σ)) (get_client_params sync)) as [e|].
  { injection H as <- <-. cbn. rewrite <- (assoc_L (++)). split; [done|].
    split; [by apply prefix_app_r|done]. }
  rewrite run_bind, run_ask in H. rewrite run_bind, run_ask_lift in H.
  cbn [heap tick trace] in H.
  destruct (system_config w (S (S (S (tick σ)))) (get_client_params sync))
    as [e|cfg] eqn:Hcfg.
  { injection H as <- <-. cbn. rewrite <- (assoc_L (++)). split; [done|].
    split; [by apply prefix_app_r|done]. }
  rewrite run_bind in H. unfold first_item in H.
  destruct (cfg_defaults_folder_devices cfg) as [|my_device ?] eqn:Hdef.
  { rewrite run_raise in H. injection H as <- <-. cbn. rewrite <- (assoc_L (++)). split; [done|].
    split; [by apply prefix_app_r|done]. }
  rewrite run_ret in H. unfold dict_setitem in H.
  rewrite run_bind, run_modify in H. cbn [heap tick trace] in H.
  rewrite deref_middle, insert_last in H.
  rewrite run_bind, run_ask_lift in H. cbn [heap tick trace] in H.
  destruct (stats_device w _ _) as [e|stats].
  { injection H as <- <-. cbn. rewrite <- (assoc_L (++)). split; [done|].
    split; [by apply prefix_app_r|done]. }
  rewrite run_bind in H.
  destruct (list_remote_devices _ _ _ _ _ _ _ _) as [[e|devs] σ1] eqn:Hdevs;
    apply list_remote_devices_run in Hdevs as (Htick1 & Htrace1 & (T & Hheap1 & HT) & Hdevs);
    cbn [heap tick trace] in *; rewrite insert_last in Hheap1.
  { injection H as <- <-. rewrite Htrace1, <- (assoc_L (++)). split; [done|].
    rewrite Hheap1. split; [by apply prefix_app_r|done]. }
  destruct Hdevs as (devs' & -> & Hdevs). cbn [app] in H.
  rewrite run_bind in H.
  destruct (list_folders _ _ _ _ _ _) as [[e|folders] σ2] eqn:Hfolders;
    apply list_folders_run in Hfolders as (Hheap2 & Htrace2 & Htick2 & Hfolders).
  { injection H as <- <-. rewrite Htrace2, Htrace1, <- (assoc_L (++)). split; [done|].
    rewrite Hheap2, Hheap1. split; [by apply prefix_app_r|done]. }
  destruct Hfolders as (folders' & -> & Hfolders). cbn [app] in H.
  rewrite run_bind, run_ask in H. rewrite run_bind, run_alloc in H.
  cbn [heap tick trace] in H.
  rewrite run_bind, create_points_run in H
    by (cbn; rewrite Hheap2, Hheap1, !length_app; cbn; lia).
  cbn [heap tick trace] in H.
  rewrite create_points_run in H
    by (cbn; rewrite Hheap2, Hheap1, !length_app; cbn; lia).
  cbn [heap tick trace] in H. injection H as <- <-. cbn [heap tick trace].
  rewrite Htrace2, Htrace1, <- (assoc_L (++)). split; [done|].
  rewrite Hheap2, Hheap1. split.
  { rewrite <- !(assoc_L (++)). by apply prefix_app_r. }
  set (q := (clock w (tick σ2) - clock w (tick σ))%Q).
  change {[ "q_elapsed" := VNum q ]} with (proto_fields_value q).
  assert (HdT : ∀ k, deref (((heap σ ++ [T]) ++ [proto_fields_value q]) ++ k)
                       (length (heap σ)) = T).
  { intros k. rewrite <- !(assoc_L (++)). apply deref_middle. }
  assert (HdF : ∀ k, deref (((heap σ ++ [T]) ++ [proto_fields_value q]) ++ k)
                       (length (heap σ ++ [T])) = proto_fields_value q).
  { intros k. rewrite <- (assoc_L (++) (heap σ ++ [T])). apply deref_middle. }
  pose proof (HdT []) as HdT0. pose proof (HdF []) as HdF0.
  rewrite app_nil_r in HdT0, HdF0.
  rewrite ?HdT, ?HdF, ?HdT0, ?HdF0.
  eexists _, T, q, devs', folders'. split; [by rewrite <- (assoc_L (++))|].
  split.
  - cbn [heap]. by rewrite <- !(assoc_L (++)).
  - rewrite !length_app, length_point_objects. cbn [length].
    do 2 f_equal; lia.
  - cbn [tick]. exists (tick σ2). split; [done|]. split; [lia|done].
  - exists cfg, (fd_deviceID my_device).
    split; [split; [exact Hcfg|by rewrite Hdef]|]. split; [|done].
    intros k Hk. rewrite HT by done. by rewrite deref_middle.
Qed.

End MainProofs.

Section Values.
Context (w : World) (args : Args) (config : AppConfiguration).

Lemma collected_refs sync σ σ' new T q devs folders :
  collected w config sync σ σ' new T q devs folders →
  refs new = seq (2 + length (heap σ)) (2 * length devs + 2 * length folders) ∧
  length (heap σ') = 2 + length (heap σ) + 2 * length devs + 2 * length folders.
Proof.
  intros [Hheap -> _ _]. split.
  - rewrite refs_app, !refs_new_points. by rewrite <- seq_app.
  - rewrite Hheap, !length_app, !length_point_objects. cbn. lia.
Qed.

Lemma collected_values sync σ σ' new T q devs folders :
  collected w config sync σ σ' new T q devs folders →
  source_points w config sync T q (resolve (heap σ') <$> new).
Proof.
  intros [Hheap -> (t_end & _ & Ht & Hq) (cfg & my_id & Hrep & HT & Hdevs & Hfolders)].
  exists devs, folders, cfg, my_id.
  split; [|split; [by eauto|split; [by eauto|done]]].
  rewrite fmap_app, Hheap. f_equal.
  - rewrite (assoc_L (++) (heap σ)).
    replace (2 + length (heap σ)) with (length (heap σ ++ [T; proto_fields_value q]))
      by (rewrite length_app; cbn; lia).
    apply resolve_new_points.
  - rewrite !(assoc_L (++)).
    rewrite <- (app_nil_r (_ ++ point_objects _ _ folders)).
    rewrite <- (assoc_L (++) _ (point_objects _ _ folders)).
    replace (2 + length (heap σ) + 2 * length devs)
      with (length ((heap σ ++ [T; proto_fields_value q])
                      ++ point_objects T (proto_fields_value q) devs))
      by (rewrite !length_app, length_point_objects; cbn; lia).
    apply resolve_new_points.
Qed.

End Values.

Section CollectAll.
Context (w : World) (args : Args) (config : AppConfiguration).

Lemma group_at_prefix h h' sync g :
  h `prefix_of` h' → group_at w config h sync g → group_at w config h' sync g.
Proof.
  intros Hpre [Hrefs (T & q & Hv)]. split.
  - eapply Forall_impl; [done|]. intros l Hl. cbn in Hl.
    apply prefix_length in Hpre. lia.
  - exists T, q. by rewrite (resolve_prefix h h').
Qed.

Lemma collect_all_run syncs : ∀ points σ r σ',
  collect_all w args config syncs points σ = (r, σ') →
  heap σ `prefix_of` heap σ' ∧
  match r with
  | inr pts => ∃ groups, pts = points ++ concat groups ∧
       trace σ' = trace σ ++ (syncs.*2 ≫= collect_events args) ∧
       Forall2 (group_at w config (heap σ')) syncs.*2 groups ∧
       Forall (λ l, length (heap σ) ≤ l < length (heap σ')) (refs (concat groups)) ∧
       NoDup (refs (concat groups))
  | inl e => ∃ before name sync after pts σ1,
       syncs = before ++ (name, sync) :: after ∧
       collect_all w args config before points σ = (inr pts, σ1) ∧
       collect w args config sync pts σ1 = (inl e, σ') ∧
       trace σ' = trace σ ++ ((before.*2 ++ [sync]) ≫= collect_events args)
  end.
Proof.
  induction syncs as [|[name sync] syncs IH]; intros points σ r σ' Hrun.
  - cbn in Hrun. rewrite run_ret in Hrun. injection Hrun as <- <-.
    split; [done|]. exists []. cbn. rewrite !app_nil_r.
    repeat split; constructor.
  - cbn [collect_all] in Hrun. rewrite run_bind in Hrun.
    destruct (collect w args config sync points σ) as [[e|pts1] σ1] eqn:Hc.
    + injection Hrun as <- <-.
      pose proof (collect_run _ _ _ _ _ _ _ _ Hc) as (Htrace & Hpre & _).
      split; [done|]. exists [], name, sync, syncs, points, σ.
      cbn. by rewrite app_nil_r.
    + pose proof (collect_run _ _ _ _ _ _ _ _ Hc)
        as (Htrace & Hpre & new & T & q & devs & folders & -> & Hcol).
      apply IH in Hrun as [Hpre' Hr].
      split; [by etrans|].
      pose proof (collected_refs _ _ _ _ _ _ _ _ _ _ Hcol) as [Hrefs Hlen].
      destruct r as [e|pts].
      * destruct Hr as (before & name' & sync' & after & pts' & σ1' & -> & Hb & Hc' & Htr).
        exists ((name, sync) :: before), name', sync', after, pts', σ1'.
        split; [done|]. split; [|split; [done|]].
        -- cbn [collect_all]. by rewrite run_bind, Hc.
        -- rewrite Htr, Htrace. cbn. by rewrite <- !(assoc_L (++)).
      * destruct Hr as (groups & -> & Htr & Hgroups & Hrange & Hnodup).
        exists (new :: groups). cbn [concat fmap list_fmap].
        split; [by rewrite (assoc_L (++))|].
        split; [rewrite Htr, Htrace; cbn; by rewrite <- !(assoc_L (++))|].
        assert (Hnew : Forall (λ l, length (heap σ) ≤ l < length (heap σ1)) (refs new)).
        { rewrite Hrefs. apply Forall_forall. intros l Hl.
          apply elem_of_seq in Hl. lia. }
        split; [|split].
        -- constructor; [|done].
           apply (group_at_prefix (heap σ1)); [done|]. split.
           ++ eapply Forall_impl; [exact Hnew|]. cbn. lia.
           ++ exists T, q. by eapply collected_values.
        -- rewrite refs_app. apply Forall_app. split.
           ++ eapply Forall_impl; [exact Hnew|]. cbn. intros l Hl.
              apply prefix_length in Hpre'. lia.
           ++ eapply Forall_impl; [exact Hrange|]. cbn. intros l Hl.
              apply prefix_length in Hpre. lia.
        -- rewrite refs_app. apply NoDup_app. split; [|split; [|done]].
           ++ rewrite Hrefs. apply NoDup_seq.
           ++ intros l Hl1 Hl2.
              eapply Forall_forall in Hl1; [|exact Hnew].
              eapply Forall_forall in Hl2; [|exact Hrange]. cbn in *. lia.
Qed.

End CollectAll.

Section SinkLookup.
Context (w : World) (args : Args) (config : AppConfiguration).

Lemma influx_getitem_run name influx σ :
  NoDup (influxes config).*1 → (name, influx) ∈ influxes config →
  influx_getitem config name σ = (inr influx, σ).
Proof.
  intros Hnd Hin. unfold influx_getitem.
  destruct (list_find _ _) as [[i [k v]]|] eqn:Hfind.
  - apply list_find_Some in Hfind as (Hi & Hk & _). cbn in Hk. subst k.
    apply list_elem_of_lookup_2 in Hi.
    by rewrite (lookup_unique_key _ _ _ _ Hnd Hi Hin).
  - apply list_find_None in Hfind.
    eapply Forall_forall in Hfind; [|done]. by destruct Hfind.
Qed.

End SinkLookup.

Section SendAll.
Context (w : World) (args : Args) (config : AppConfiguration).

Lemma attempt_events_pair n vals name influx o :
  attempt_events args n vals (name, influx) o =
  info_events args (MsgSending n name) ++ [NewInflux influx]
    ++ match o with
       | SinkClientFailed _ => []
       | _ => [WritePoints influx vals]
       end.
Proof. reflexivity. Qed.

(** One pass through the body of the sink loop, before the handler. *)
Lemma run_attempt influx points σ :
  (emit (NewInflux influx);;
   ask (λ t, new_influx w t influx) ≫= lift_status;;
   client_write_points w influx points) σ =
  let vals := resolve (heap σ) <$> points in
  let o := sink_outcome_at w (tick σ) influx vals in
  (match outcome_error o with Some e => inl e | None => inr () end,
   {| heap := heap σ; tick := tick σ + outcome_ticks o;
      trace := trace σ ++ [NewInflux influx]
                 ++ match o with
                    | SinkClientFailed _ => []
                    | _ => [WritePoints influx vals]
                    end |}).
Proof.
  cbn zeta. unfold sink_outcome_at.
  rewrite run_bind, run_emit. rewrite run_bind, run_ask_lift_status.
  cbn [heap tick trace].
  destruct (new_influx w (tick σ) influx) as [e|]; cbn.
  { do 3 f_equal. lia. }
  unfold client_write_points. rewrite run_bind, run_emit. cbn [heap tick trace].
  rewrite run_ask_lift_status. cbn [heap tick trace].
  rewrite <- (assoc_L (++)). cbn.
  destruct (write_points w (S (tick σ)) influx _) as [e|]; cbn; do 3 f_equal; lia.
Qed.

Lemma send_all_run items : ∀ points σ,
  NoDup (influxes config).*1 → items ⊆ influxes config →
  let vals := resolve (heap σ) <$> points in
  let outcomes := sink_outcomes w (tick σ) vals items in
  ∃ r σ', send_all w args config items points σ = (r, σ') ∧ heap σ' = heap σ ∧
    if arg_halt_on_send_error args then
      match first_failure outcomes with
      | None =>
          r = inr () ∧
          trace σ' = trace σ ++ concat (zip_with
            (attempt_events args (length points) vals) items outcomes)
      | Some (k, e) =>
          r = inl e ∧
          trace σ' = trace σ ++ concat (zip_with
            (attempt_events args (length points) vals) items (take (S k) outcomes))
      end
    else
      r = inr () ∧
      trace σ' = trace σ ++ concat (zip_with
        (λ item o, attempt_events args (length points) vals item o ++ report_events o)
        items outcomes).
Proof.
  induction items as [|[name influx] items IH]; intros points σ Hnd Hsub; cbn zeta.
  - exists (inr ()), σ. cbn. rewrite run_ret, app_nil_r.
    by destruct (arg_halt_on_send_error args).
  - cbn [send_all sink_outcomes].
    rewrite run_bind, run_info. rewrite run_bind. unfold try_except.
    rewrite run_bind, (influx_getitem_run config name influx) by (done || set_solver).
    rewrite run_attempt. cbn [heap tick trace].
    set (vals := resolve (heap σ) <$> points).
    set (o := sink_outcome_at w (tick σ) influx vals).
    set (σ1 := {| heap := heap σ; tick := tick σ + outcome_ticks o;
                  trace := _ |}).
    destruct (outcome_error o) as [e|] eqn:Ho.
    all: assert (Hrep : report_events o = from_option (λ e, [PrintExc e]) [] (outcome_error o))
      by (unfold report_events; by destruct (outcome_error o)).
    all: rewrite Ho in Hrep; cbn in Hrep.
    + destruct (arg_halt_on_send_error args) eqn:Hhalt.
      * rewrite run_raise. exists (inl e), σ1. cbn [first_failure].
        rewrite Ho. cbn. split; [done|]. split; [done|]. split; [done|].
        rewrite take_0, zip_with_nil_r, attempt_events_pair. cbn.
        by rewrite app_nil_r, <- !(assoc_L (++)).
      * rewrite run_emit.
        set (σ2 := {| heap := heap σ1; tick := tick σ1; trace := trace σ1 ++ [PrintExc e] |}).
        destruct (IH points σ2 Hnd ltac:(set_solver)) as (r & σ' & Hrun & Hheap & Hr).
        exists r, σ'. split; [done|]. split; [done|].
        destruct Hr as [-> Htr]. split; [done|].
        rewrite Htr. cbn. rewrite Hrep, attempt_events_pair.
        by rewrite <- !(assoc_L (++)).
    + destruct (IH points σ1 Hnd ltac:(set_solver)) as (r & σ' & Hrun & Hheap & Hr).
      exists r, σ'. split; [done|]. split; [done|].
      cbn [first_failure]. rewrite Ho.
      change (heap σ1) with (heap σ) in Hr. change (tick σ1) with (tick σ + outcome_ticks o) in Hr.
      fold vals in Hr.
      destruct (arg_halt_on_send_error args).
      * destruct (first_failure _) as [[k e]|]; cbn.
        -- destruct Hr as [-> Htr]. split; [done|]. rewrite Htr. cbn.
           rewrite attempt_events_pair. by rewrite <- !(assoc_L (++)).
        -- destruct Hr as [-> Htr]. split; [done|]. rewrite Htr. cbn.
           rewrite attempt_events_pair. by rewrite <- !(assoc_L (++)).
      * destruct Hr as [-> Htr]. split; [done|]. rewrite Htr. cbn.
        rewrite Hrep, attempt_events_pair. by rewrite <- !(assoc_L (++)).
Qed.

End SendAll.

Section CollectSteps.
Context (w : World) (args : Args) (config : AppConfiguration).

(** [collect] up to the device statistics: the four places where it can
    stop, and how it goes on. *)
Lemma collect_unfold sync points σ :
  let conn := get_client_params sync in
  let evs := collect_events args sync in
  let h := heap σ ++ [static_proto_tags sync] in
  collect w args config sync points σ =
  match new_syncthing w (1 + tick σ) conn with
  | Some e => (inl e, later σ h 2 evs)
  | None =>
      match system_config w (3 + tick σ) conn with
      | inl e => (inl e, later σ h 4 evs)
      | inr sync_cfg =>
          match cfg_defaults_folder_devices sync_cfg with
          | [] => (inl IndexError, later σ h 4 evs)
          | my_device :: _ =>
              let my_id := fd_deviceID my_device in
              let h' := heap σ ++ [<["my_id" := VStr my_id]> (static_proto_tags sync)] in
              match stats_device w (4 + tick σ) conn with
              | inl e => (inl e, later σ h' 5 evs)
              | inr device_stats =>
                  collect_entities w config sync points (clock w (tick σ))
                    (clock w (2 + tick σ)) sync_cfg my_id device_stats
                    (length (heap σ)) (later σ h' 5 evs)
              end
          end
      end
  end.
Proof.
  cbn zeta. unfold collect, collect_events, later.
  rewrite run_bind, run_info. rewrite run_bind, run_alloc.
  cbn [heap tick trace].
  rewrite run_bind, run_static_tags.
  rewrite run_bind, run_ask. rewrite run_bind, run_emit.
  cbn [heap tick trace].
  rewrite run_bind, run_ask_lift_status. cbn [heap tick trace plus].
  rewrite <- (assoc_L (++)).
  destruct (new_syncthing w (S (tick σ)) (get_client_params sync)) as [e|]; [done|].
  rewrite run_bind, run_ask. rewrite run_bind, run_ask_lift.
  cbn [heap tick trace].
  destruct (system_config w (S (S (S (tick σ)))) (get_client_params sync)) as [e|cfg];
    [done|].
  rewrite run_bind. unfold first_item.
  destruct (cfg_defaults_folder_devices cfg) as [|my_device ?]; [done|].
  rewrite run_ret. unfold dict_setitem.
  rewrite run_bind, run_modify. cbn [heap tick trace].
  rewrite deref_middle, insert_last.
  rewrite run_bind, run_ask_lift. cbn [heap tick trace].
  destruct (stats_device w _ _) as [e|stats]; [done|].
  reflexivity.
Qed.

End CollectSteps.

Section EntityFailures.
Context (w : World) (args : Args) (config : AppConfiguration).

(** The device loop raises the [KeyError] of a remote device that has no
    statistics, or the error of a time stamp that cannot be parsed. *)
Lemma list_remote_devices_inl now my_id pt stats devices : ∀ acc σ e σ',
  list_remote_devices w now my_id pt stats devices acc σ = (inl e, σ') →
  (∃ d, d ∈ devices ∧ missing_stats my_id stats d ∧ e = KeyError (dev_deviceID d))
  ∨ (∃ s, parse_datetime w s = inl e).
Proof.
  induction devices as [|d0 devices IH]; intros acc σ e σ' Hrun; [done|].
  cbn [list_remote_devices] in Hrun. rewrite run_bind in Hrun.
  assert (Hrest : ∀ acc' σ1,
    list_remote_devices w now my_id pt stats devices acc' σ1 = (inl e, σ') →
    (∃ d, d ∈ d0 :: devices ∧ missing_stats my_id stats d ∧ e = KeyError (dev_deviceID d))
    ∨ (∃ s, parse_datetime w s = inl e)).
  { intros acc' σ1 H1. apply IH in H1 as [(d & Hd & Hm)|Hp]; [left|by right].
    exists d. split; [by apply elem_of_cons; right|done]. }
  destruct (decide (dev_deviceID d0 = my_id)) as [Heq|Hne0].
  - rewrite run_bind in Hrun. unfold dict_setitem in Hrun.
    rewrite run_modify, run_ret in Hrun. by eapply Hrest.
  - rewrite run_bind in Hrun. unfold getitem in Hrun.
    destruct (stats !! dev_deviceID d0) as [st|] eqn:Hst.
    + rewrite run_ret, run_bind in Hrun.
      destruct (parse_datetime w (lastSeen st)) as [e0|ls] eqn:Hparse; cbn in Hrun.
      * injection Hrun as <- <-. right. by exists (lastSeen st).
      * by eapply Hrest.
    + rewrite run_raise in Hrun. injection Hrun as <- <-.
      left. exists d0. split; [by apply elem_of_cons; left|done].
Qed.

(** With a remote device absent from the statistics the device loop
    raises. *)
Lemma list_remote_devices_missing now my_id pt stats devices :
  (∃ d, d ∈ devices ∧ missing_stats my_id stats d) →
  ∀ acc σ, ∃ e σ',
    list_remote_devices w now my_id pt stats devices acc σ = (inl e, σ').
Proof.
  induction devices as [|d0 devices IH]; intros (d & Hin & Hne & Hnone) acc σ.
  { by apply elem_of_nil in Hin. }
  cbn [list_remote_devices]. rewrite run_bind.
  destruct (decide (dev_deviceID d0 = my_id)) as [Heq|Hne0].
  - apply elem_of_cons in Hin as [->|Hin]; [done|].
    rewrite run_bind. unfold dict_setitem. rewrite run_modify, run_ret.
    apply IH. by exists d.
  - rewrite run_bind. unfold getitem.
    destruct (stats !! dev_deviceID d0) as [st|] eqn:Hst.
    + rewrite run_ret, run_bind.
      destruct (parse_datetime w (lastSeen st)) as [e|ls] eqn:Hparse; cbn.
      { by exists e, σ. }
      apply elem_of_cons in Hin as [->|Hin]; [congruence|].
      apply IH. by exists d.
    + rewrite run_raise. by eexists _, _.
Qed.

(** The folder loop raises the error of a completion query. *)
Lemma list_folders_inl conn my_id fs : ∀ acc σ e σ',
  list_folders w conn my_id fs acc σ = (inl e, σ') →
  ∃ f t, f ∈ fs ∧ database_completion w t conn my_id (folder_id f) = inl e.
Proof.
  induction fs as [|f0 fs IH]; intros acc σ e σ' Hrun; [done|].
  cbn [list_folders] in Hrun. rewrite run_bind, run_ask_lift in Hrun.
  destruct (database_completion w (tick σ) conn my_id (folder_id f0)) as [e0|c] eqn:Hc.
  - injection Hrun as <- <-. exists f0, (tick σ).
    split; [by apply elem_of_cons; left|done].
  - apply IH in Hrun as (f & t & Hf & Ht). exists f, t.
    split; [by apply elem_of_cons; right|done].
Qed.

(** With a folder whose completion query fails the folder loop raises. *)
Lemma list_folders_fail conn my_id fs :
  (∃ f e, f ∈ fs ∧ ∀ t, database_completion w t conn my_id (folder_id f) = inl e) →
  ∀ acc σ, ∃ e σ', list_folders w conn my_id fs acc σ = (inl e, σ').
Proof.
  induction fs as [|f0 fs IH]; intros (f & e & Hin & Hfail) acc σ.
  { by apply elem_of_nil in Hin. }
  cbn [list_folders]. rewrite run_bind, run_ask_lift.
  destruct (database_completion w (tick σ) conn my_id (folder_id f0)) as [e0|c] eqn:Hc.
  - by eexists _, _.
  - apply elem_of_cons in Hin as [->|Hin]; [by rewrite Hfail in Hc|].
    apply IH. by exists f, e.
Qed.

(** Whatever the outcome, the entity part of [collect] leaves the objects
    before [proto_tags] alone, and changes [proto_tags] under ["my_name"]
    only. *)
Lemma collect_entities_run sync points q_started now cfg my_id stats h T σ r σ' :
  heap σ = h ++ [T] →
  collect_entities w config sync points q_started now cfg my_id stats (length h) σ
    = (r, σ') →
  trace σ' = trace σ ∧
  (∃ T' rest, heap σ' = h ++ T' :: rest ∧ ∀ k, k ≠ "my_name" → T' !! k = T !! k) ∧
  match r with
  | inl e => entity_failure w (get_client_params sync) cfg my_id stats e
  | inr _ => True
  end.
Proof.
  intros Hheap. unfold collect_entities. rewrite run_bind.
  destruct (list_remote_devices _ _ _ _ _ _ _ _) as [[e|devs] σ1] eqn:Hdevs;
    pose proof (list_remote_devices_run _ _ _ _ _ _ _ _ _ _ Hdevs)
      as (_ & Htrace1 & (T' & Hheap1 & HT) & _);
    rewrite Hheap, insert_last in Hheap1; rewrite Hheap, deref_middle in HT.
  { intros [= <- <-]. split; [done|]. split; [by exists T', []|].
    apply list_remote_devices_inl in Hdevs as [?|?]; [by left|by right; left]. }
  rewrite run_bind.
  destruct (list_folders _ _ _ _ _ _) as [[e|folders] σ2] eqn:Hfolders;
    pose proof (list_folders_run _ _ _ _ _ _ _ _ Hfolders) as (Hheap2 & Htrace2 & _ & _).
  { intros [= <- <-]. split; [congruence|].
    split; [exists T', []; by rewrite Hheap2|].
    right; right. by eapply list_folders_inl. }
  rewrite run_bind, run_ask. rewrite run_bind, run_alloc. cbn [heap tick trace].
  rewrite run_bind, create_points_run
    by (cbn; rewrite Hheap2, Hheap1, !length_app; cbn; lia).
  cbn [heap tick trace].
  rewrite create_points_run by (cbn; rewrite Hheap2, Hheap1, !length_app; cbn; lia).
  intros [= <- <-]. cbn [heap tick trace]. split; [congruence|]. split; [|done].
  rewrite Hheap2, Hheap1. eexists T', _. split; [|done].
  rewrite <- !(assoc_L (++)). reflexivity.
Qed.

(** A missing statistics entry or a failing completion query makes the
    entity part of [collect] raise. *)
Lemma collect_entities_fail sync points q_started now cfg my_id stats pt σ :
  (∃ d, d ∈ cfg_devices cfg ∧ missing_stats my_id stats d)
  ∨ (∃ f e, f ∈ cfg_folders cfg ∧
       ∀ t, database_completion w t (get_client_params sync) my_id (folder_id f) = inl e) →
  ∃ e σ',
    collect_entities w config sync points q_started now cfg my_id stats pt σ
      = (inl e, σ').
Proof.
  intros Hfail. unfold collect_entities. rewrite run_bind.
  destruct (list_remote_devices _ _ _ _ _ _ _ _) as [[e|devs] σ1] eqn:Hdevs;
    [by eexists _, _|].
  destruct Hfail as [Hmiss|Hfolder].
  - destruct (list_remote_devices_missing now my_id pt stats _ Hmiss [] σ)
      as (e & σ' & Hrun). congruence.
  - rewrite run_bind.
    destruct (list_folders_fail _ _ _ Hfolder [] σ1) as (e & σ' & ->).
    by eexists _, _.
Qed.

End EntityFailures.

Lemma elem_of_concat_zip_with {A B C} (f : A → B → list C) l k x :
  x ∈ concat (zip_with f l k) → ∃ a b, a ∈ l ∧ b ∈ k ∧ x ∈ f a b.
Proof.
  revert k. induction l as [|a l IH]; intros [|b k]; cbn; try by intros ?%elem_of_nil.
  intros [Hx|Hx]%elem_of_app.
  - exists a, b. split; [by apply elem_of_cons; left|].
    split; [by apply elem_of_cons; left|done].
  - apply IH in Hx as (a' & b' & ? & ? & ?). exists a', b'.
    split; [by apply elem_of_cons; right|].
    split; [by apply elem_of_cons; right|done].
Qed.

Lemma info_events_not_sink args m ev : ev ∈ info_events args m → ¬ is_sink_event ev.
Proof.
  unfold info_events. destruct (arg_silent args); [by intros ?%elem_of_nil|].
  by intros ->%list_elem_of_singleton [].
Qed.

Lemma collect_events_not_sink args syncs ev :
  ev ∈ syncs ≫= collect_events args → ¬ is_sink_event ev.
Proof.
  intros (sync & Hev & _)%list_elem_of_bind. unfold collect_events in Hev.
  apply elem_of_app in Hev as [Hev|Hev]; [by eapply info_events_not_sink|].
  apply list_elem_of_singleton in Hev as ->. by intros [].
Qed.

Lemma attempt_events_write args n vals item o c batch :
  WritePoints c batch ∈ attempt_events args n vals item o ++ report_events o →
  c = item.2 ∧ batch = vals.
Proof.
  unfold attempt_events, report_events.
  rewrite !elem_of_app. intros [[Hi|[Hn|Hw]]|Hr].
  - by apply info_events_not_sink in Hi.
  - by apply list_elem_of_singleton in Hn.
  - destruct o; first [by apply elem_of_nil in Hw
                      |apply list_elem_of_singleton in Hw; by injection Hw].
  - destruct (outcome_error o); [by apply list_elem_of_singleton in Hr
                                |by apply elem_of_nil in Hr].
Qed.

Section MainRun.
Context (w : World) (args : Args) (config : AppConfiguration).

Lemma collect_all_app l1 l2 : ∀ points σ,
  collect_all w args config (l1 ++ l2) points σ =
  (pts ← collect_all w args config l1 points; collect_all w args config l2 pts) σ.
Proof.
  induction l1 as [|[name sync] l1 IH]; intros points σ; [done|].
  cbn [app collect_all]. rewrite !run_bind.
  destruct (collect w args config sync points σ) as [[e|pts] σ1]; [done|].
  by rewrite IH, run_bind.
Qed.

(** An exception of [collect] goes through [main]: the sources that follow
    are not contacted and nothing is sent. *)
Lemma main_collect_failure before name sync after σ pts σ1 e σ2 :
  syncthings config = before ++ (name, sync) :: after →
  collect_all w args config before [] σ = (inr pts, σ1) →
  collect w args config sync pts σ1 = (inl e, σ2) →
  main w args config σ = (inl e, σ2) ∧
  trace σ2 = trace σ ++ ((before.*2 ++ [sync]) ≫= collect_events args).
Proof.
  intros Hsyncs Hbefore Hc. split.
  - unfold main. rewrite Hsyncs, run_bind, collect_all_app, run_bind, Hbefore.
    cbn [collect_all]. by rewrite run_bind, Hc.
  - apply collect_all_run in Hbefore as (_ & groups & _ & Htr & _).
    apply collect_run in Hc as (Htr' & _).
    rewrite Htr', Htr, bind_app. cbn. by rewrite app_nil_r, (assoc_L (++)).
Qed.

(** What [main] writes: every batch handed to a sink is the concatenation,
    source by source, of the points collected from each source. *)
Lemma main_run σ r σ' :
  NoDup (influxes config).*1 →
  main w args config σ = (r, σ') →
  ∃ evs, trace σ' = trace σ ++ evs ∧
    ∀ c batch, WritePoints c batch ∈ evs →
      ∃ groups, batch = concat groups ∧
        Forall2 (λ sync g, ∃ T q, source_points w config sync T q g)
          (syncthings config).*2 groups.
Proof.
  intros Hnd. unfold main. rewrite run_bind.
  destruct (collect_all _ _ _ _ _ _) as [[e|pts] σ1] eqn:Hall;
    apply collect_all_run in Hall as [Hpre Hall].
  - intros [= <- <-].
    destruct Hall as (before & name & sync & after & pts & σ0 & _ & _ & _ & Htr).
    eexists. split; [done|]. intros c batch Hin.
    by apply collect_events_not_sink in Hin.
  - destruct Hall as (groups & Hpts & Htr & Hgroups & _ & _). cbn in Hpts.
    destruct pts as [|p pts'].
    { rewrite run_ret. intros [= <- <-]. eexists. split; [done|].
      intros c batch Hin. by apply collect_events_not_sink in Hin. }
    intros Hsend.
    destruct (send_all_run w args config (influxes config) (p :: pts') σ1 Hnd
                ltac:(done)) as (r' & σ'' & Hrun & _ & Hr).
    rewrite Hsend in Hrun. injection Hrun as <- <-.
    set (vals := resolve (heap σ1) <$> p :: pts') in *.
    assert (Hvals : ∃ gs, vals = concat gs ∧
      Forall2 (λ sync g, ∃ T q, source_points w config sync T q g)
        (syncthings config).*2 gs).
    { exists ((λ g : list Point, resolve (heap σ1) <$> g) <$> groups). split.
      - unfold vals. rewrite Hpts. clear. induction groups as [|g gs IH]; [done|].
        cbn. by rewrite fmap_app, IH.
      - apply Forall2_fmap_r. eapply Forall2_impl; [exact Hgroups|].
        intros sync g [_ HTq]. exact HTq. }
    assert (Hev : ∃ evs, trace σ' = trace σ1 ++ evs ∧
      ∀ c batch, WritePoints c batch ∈ evs → batch = vals).
    { destruct (arg_halt_on_send_error args).
      - destruct (first_failure _) as [[k e]|]; destruct Hr as [_ ->];
          (eexists; split; [done|]); intros c batch Hin;
          apply elem_of_concat_zip_with in Hin as (item & o & _ & _ & Hin);
          eapply (attempt_events_write _ _ _ _ o);
          apply elem_of_app; left; exact Hin.
      - destruct Hr as [_ ->]. eexists. split; [done|]. intros c batch Hin.
        apply elem_of_concat_zip_with in Hin as (item & o & _ & _ & Hin).
        by eapply attempt_events_write. }
    destruct Hev as (evs & -> & Hev). rewrite Htr, <- (assoc_L (++)).
    eexists. split; [done|]. intros c batch Hin.
    apply elem_of_app in Hin as [Hin|Hin].
    + by apply collect_events_not_sink in Hin.
    + apply Hev in Hin as ->. exact Hvals.
Qed.

End MainRun.

(** ** Tags and fields of the points of a source *)

Lemma updated_pairs_lookup_notin l : ∀ d k,
  k ∉ l.*1 → updated_pairs d l !! k = d !! k.
Proof.
  induction l as [|[k' v'] l IH]; intros d k Hk; [done|].
  cbn in Hk. apply not_elem_of_cons in Hk as [Hne Hk].
  unfold updated_pairs in *. cbn. rewrite IH by done. by rewrite lookup_insert_ne.
Qed.

Lemma updated_pairs_lookup_in l : ∀ d k,
  k ∈ l.*1 → ∃ v, (k, v) ∈ l ∧ updated_pairs d l !! k = Some (VStr v).
Proof.
  induction l as [|[k' v'] l IH]; intros d k Hk; [by apply elem_of_nil in Hk|].
  destruct (decide (k ∈ l.*1)) as [Hin|Hnotin].
  - destruct (IH (<[k' := VStr v']> d) k Hin) as (v & Hv & Hlook).
    exists v. split; [by apply elem_of_cons; right|done].
  - cbn in Hk. apply elem_of_cons in Hk as [->|Hk]; [|done].
    exists v'. split; [by apply elem_of_cons; left|].
    change (updated_pairs d ((k', v') :: l))
      with (updated_pairs (<[k' := VStr v']> d) l).
    rewrite updated_pairs_lookup_notin by done. apply lookup_insert_eq.
Qed.

Lemma device_entity_tags d e k :
  is_device_entity d e → k ≠ "id" → k ≠ "name" → ent_tags e !! k = None.
Proof.
  intros [ls ->] ??. unfold device_entity. cbn [ent_tags].
  rewrite lookup_insert_ne by done. by apply lookup_singleton_ne.
Qed.

Lemma folder_entity_tags f e k :
  is_folder_entity f e → k ≠ "id" → k ≠ "label" → k ≠ "path" →
  ent_tags e !! k = None.
Proof.
  intros [c ->] ???. unfold folder_entity. cbn [ent_tags].
  rewrite !lookup_insert_ne by done. by apply lookup_singleton_ne.
Qed.

Lemma device_entity_fields d e k :
  is_device_entity d e → k ≠ "last_seen_since_sec" → ent_fields e !! k = None.
Proof.
  intros [ls ->] ?. unfold device_entity. cbn [ent_fields].
  by apply lookup_singleton_ne.
Qed.

Lemma folder_entity_fields f e k :
  is_folder_entity f e → k ≠ "completion" → ent_fields e !! k = None.
Proof.
  intros [c ->] ?. unfold folder_entity. cbn [ent_fields].
  by apply lookup_singleton_ne.
Qed.

(** Every point of a source is made from the entity of a device or of a
    folder. *)
Lemma source_points_inv w config sync T q vs pv :
  source_points w config sync T q vs → pv ∈ vs →
  ∃ meas e, pv = point_value meas T (proto_fields_value q) e ∧
    ((∃ d, is_device_entity d e) ∨ (∃ f, is_folder_entity f e)).
Proof.
  intros (devs & folders & cfg & my_id & -> & _ & _ & _ & Hdevs & Hfolders) Hin.
  apply elem_of_app in Hin as [Hin|Hin];
    apply list_elem_of_fmap in Hin as (e & -> & He); eexists _, e; (split; [done|]).
  - left. apply list_elem_of_lookup in He as [i Hi].
    destruct (Forall2_lookup_r _ _ _ _ _ Hdevs Hi) as (d & _ & Hd). by exists d.
  - right. apply list_elem_of_lookup in He as [i Hi].
    destruct (Forall2_lookup_r _ _ _ _ _ Hfolders Hi) as (f & _ & Hf). by exists f.
Qed.

(** The entity tags and ["my_id"], ["my_name"] leave the other keys of
    [proto_tags] as the static tags made them. *)
Lemma source_points_tag w config sync T q vs pv k :
  source_points w config sync T q vs → pv ∈ vs →
  k ∉ ["id"; "name"; "label"; "path"; "my_id"; "my_name"] →
  pv_tags pv !! k = static_proto_tags sync !! k.
Proof.
  intros Hsrc Hin Hk.
  rewrite !not_elem_of_cons in Hk. destruct Hk as (? & ? & ? & ? & ? & ? & _).
  destruct (source_points_inv _ _ _ _ _ _ _ Hsrc Hin) as (meas & e & -> & He).
  destruct Hsrc as (_ & _ & _ & my_id & _ & _ & _ & HT & _).
  cbn. unfold updated. rewrite lookup_union_r.
  - rewrite HT by done. by apply lookup_insert_ne.
  - destruct He as [[d Hd]|[f Hf]].
    + by eapply device_entity_tags.
    + by eapply folder_entity_tags.
Qed.

Lemma source_points_cfg_name w config sync T q vs pv :
  source_points w config sync T q vs → pv ∈ vs → cfg_name_tag sync pv.
Proof.
  intros Hsrc Hin. unfold cfg_name_tag.
  rewrite (source_points_tag _ _ _ _ _ _ _ "cfg_name" Hsrc Hin)
    by (rewrite !not_elem_of_cons; repeat split; (done || apply not_elem_of_nil)).
  unfold static_proto_tags, static_keys. split; intros Hk.
  - rewrite updated_pairs_lookup_notin by done. apply lookup_singleton_eq.
  - by apply updated_pairs_lookup_in.
Qed.

Lemma source_points_q_elapsed w config sync T q vs pv :
  source_points w config sync T q vs → pv ∈ vs →
  pv_fields pv !! "q_elapsed" = Some (VNum q).
Proof.
  intros Hsrc Hin.
  destruct (source_points_inv _ _ _ _ _ _ _ Hsrc Hin) as (meas & e & -> & He).
  cbn. unfold updated. rewrite lookup_union_r; [apply lookup_singleton_eq|].
  destruct He as [[d Hd]|[f Hf]].
  - by eapply device_entity_fields.
  - by eapply folder_entity_fields.
Qed.

(** ** The command line and the scheduler *)

Lemma run_parser_error {A} msg σ :
  (parser_error msg : M A) σ =
  (inl (SystemExit 2),
   {| heap := heap σ; tick := tick σ; trace := trace σ ++ [PrintErr msg] |}).
Proof. reflexivity. Qed.

(** The arguments that pass the checks have a configuration file and no
    configuration directory. *)
Lemma check_args_accepted args σ args' σ' :
  check_args args σ = (inr args', σ') →
  σ' = σ ∧ arg_config_dir args' = None ∧
  arg_config args' = Some (default "syncflux.yml" (arg_config args)).
Proof.
  unfold check_args. rewrite run_bind.
  destruct (arg_silent args && arg_verbose args); [by rewrite run_parser_error|].
  rewrite run_ret, run_bind.
  destruct args as [[c|] [d|] count wait silent verbose halt]; cbn;
    try (by rewrite run_parser_error).
  all: rewrite run_bind.
  all: destruct (bool_decide (count = 0%Z)); [by rewrite run_parser_error|].
  all: rewrite run_ret, run_bind.
  all: destruct (Qle_bool wait 0); [by rewrite run_parser_error|].
  all: rewrite !run_ret; by intros [= <- <-].
Qed.

(** Without a directory the listing loop can only fail: the first name
    with the extension [.yml] is a [TypeError]. *)
Lemma yml_files_without_dir names : ∀ acc σ,
  yml_files None names acc σ =
  if existsb (λ n, bool_decide (lower (splitext n).2 = ".yml")) names
  then (inl TypeError, σ) else (inr acc, σ).
Proof.
  induction names as [|n names IH]; intros acc σ; [done|].
  cbn [yml_files existsb].
  destruct (bool_decide (lower (splitext n).2 = ".yml")); [done|].
  apply IH.
Qed.

(** So the list of configuration files of an accepted command line is the
    one file of [--config], or empty. *)
Lemma config_files_accepted w args σ args' σ' files σ1 σ2 :
  check_args args σ = (inr args', σ') →
  config_files w args' σ1 = (inr files, σ2) →
  files = [default "syncflux.yml" (arg_config args)] ∨ files = [].
Proof.
  intros (_ & Hdir & Hconfig)%check_args_accepted. unfold config_files.
  rewrite Hconfig, Hdir.
  destruct (default "syncflux.yml" (arg_config args)) as [|a s].
  - rewrite run_bind, run_ask_lift.
    destruct (listdir w (tick σ1) None) as [e|names]; [done|].
    rewrite yml_files_without_dir. destruct (existsb _ _); [done|].
    intros [= <- <-]. by right.
  - rewrite run_ret. intros [= <- <-]. by left.
Qed.




(** ** The claims *)

(** C1, as the code has it.  Every point that [main] writes carries the
    tag [cfg_name]; for a source whose static tags do not have the key
    [cfg_name] its value is the configured name of the source, and the
    tags of a device or of a folder (keys [id], [name], [label], [path])
    never replace it.  For a source whose static tags have the key, the
    value is the one the static tags give. *)
Theorem cfg_name_of_written_points w args config σ r σ' :
  NoDup (influxes config).*1 →
  main w args config σ = (r, σ') →
  ∃ evs, trace σ' = trace σ ++ evs ∧
    ∀ c batch, WritePoints c batch ∈ evs →
      ∃ groups, batch = concat groups ∧
        Forall2 (λ sync g, ∀ pv, pv ∈ g → cfg_name_tag sync pv)
          (syncthings config).*2 groups.
Proof.
  intros Hnd Hrun.
  destruct (main_run w args config σ r σ' Hnd Hrun) as (evs & Htr & Hev).
  exists evs. split; [done|]. intros c batch Hin.
  destruct (Hev c batch Hin) as (groups & -> & Hgroups).
  exists groups. split; [done|].
  eapply Forall2_impl; [exact Hgroups|].
  intros sync g (T & q & Hsrc) pv Hpv. by eapply source_points_cfg_name.
Qed.

Lemma cfg_name_of_written_points_witness :
  let config := example_config [example_source "home" "h1" (Some [("site", "attic")])] ["a"] in
  let args := example_args 1 60 false in
  let run := main healthy_world args config initial_state in
  ∃ evs, trace run.2 = trace initial_state ++ evs ∧
    ∀ c batch, WritePoints c batch ∈ evs →
      ∃ groups, batch = concat groups ∧
        Forall2 (λ sync g, ∀ pv, pv ∈ g → cfg_name_tag sync pv)
          (syncthings config).*2 groups.
Proof.
  cbv zeta.
  apply (cfg_name_of_written_points healthy_world (example_args 1 60 false)
           (example_config [example_source "home" "h1" (Some [("site", "attic")])] ["a"])
           initial_state (inr ())).
  - apply (bool_decide_unpack _). vm_compute. exact I.
  - vm_compute. reflexivity.
Defined.

(** C1 as stated fails: a static tag [cfg_name] replaces the name of the
    source on every point, and the merge of tags is a plain [update]. *)
Lemma static_cfg_name_replaces_source_name :
  let sync := example_source "A" "h1" (Some [("cfg_name", "device1")]) in
  let run := main healthy_world (example_args 1 60 false)
               (example_config [sync] ["a"]) initial_state in
  run.1 = inr () ∧
  (λ pv, pv_tags pv !! "cfg_name") <$> concat (written (trace run.2))
    = [Some (VStr "device1"); Some (VStr "device1"); Some (VStr "device1")] ∧
  updated {[ "cfg_name" := VStr "A" ]} {[ "cfg_name" := VStr "device1" ]}
    !! "cfg_name" = Some (VStr "device1").
Proof. cbv zeta. split; [|split]; vm_compute; reflexivity. Qed.

(** C7.  The points that [collect] appends for a source all carry, under
    [q_elapsed], the difference between the clock read after the queries
    of that source and the clock read before them; and every batch that
    [main] writes splits into one group per source whose points all carry
    the same [q_elapsed]. *)
Theorem q_elapsed_shared_by_source w args config :
  (∀ sync points σ pts σ',
     collect w args config sync points σ = (inr pts, σ') →
     ∃ new t_end, pts = points ++ new ∧ tick σ' = S t_end ∧ tick σ < t_end ∧
       ∀ p, p ∈ new →
         deref (heap σ') (fields p) !! "q_elapsed"
           = Some (VNum (clock w t_end - clock w (tick σ))))
  ∧ (∀ σ r σ',
       NoDup (influxes config).*1 →
       main w args config σ = (r, σ') →
       ∃ evs, trace σ' = trace σ ++ evs ∧
         ∀ c batch, WritePoints c batch ∈ evs →
           ∃ groups, batch = concat groups ∧
             Forall2 (λ _ g, ∃ q, ∀ pv, pv ∈ g →
                        pv_fields pv !! "q_elapsed" = Some (VNum q))
               (syncthings config).*2 groups).
Proof.
  split.
  - intros sync points σ pts σ' Hrun.
    apply collect_run in Hrun as (_ & _ & new & T & q & devs & folders & -> & Hcol).
    pose proof (collected_values _ _ _ _ _ _ _ _ _ _ Hcol) as Hsrc.
    destruct Hcol as [_ _ (t_end & Htick & Hlt & ->) _].
    exists new, t_end. repeat split; [done..|]. intros p Hp.
    change (deref (heap σ') (fields p)) with (pv_fields (resolve (heap σ') p)).
    eapply source_points_q_elapsed; [exact Hsrc|].
    apply list_elem_of_fmap. by exists p.
  - intros σ r σ' Hnd Hrun.
    destruct (main_run w args config σ r σ' Hnd Hrun) as (evs & Htr & Hev).
    exists evs. split; [done|]. intros c batch Hin.
    destruct (Hev c batch Hin) as (groups & -> & Hgroups).
    exists groups. split; [done|].
    eapply Forall2_impl; [exact Hgroups|].
    intros sync g (T & q & Hsrc). exists q. intros pv Hpv.
    by eapply source_points_q_elapsed.
Qed.

Lemma q_elapsed_shared_by_source_witness :
  let config := example_config [example_source "home" "h1" None] ["a"] in
  let args := example_args 1 60 false in
  let run := main healthy_world args config initial_state in
  ∃ evs, trace run.2 = trace initial_state ++ evs ∧
    ∀ c batch, WritePoints c batch ∈ evs →
      ∃ groups, batch = concat groups ∧
        Forall2 (λ _ g, ∃ q, ∀ pv, pv ∈ g →
                   pv_fields pv !! "q_elapsed" = Some (VNum q))
          (syncthings config).*2 groups.
Proof.
  cbv zeta.
  apply (proj2 (q_elapsed_shared_by_source healthy_world (example_args 1 60 false)
                  (example_config [example_source "home" "h1" None] ["a"]))
           initial_state (inr ())).
  - apply (bool_decide_unpack _). vm_compute. exact I.
  - vm_compute. reflexivity.
Defined.

(** C10.  [create_points] copies the proto dictionaries: whatever the
    entities, it succeeds, every object that was in the store before
    (the proto dictionaries and the dictionaries of the points made so
    far) is left as it was, and the references of the new points are
    pairwise distinct references to new objects.  Hence no two points of
    a batch share a dictionary. *)
Theorem points_own_their_dictionaries w args config :
  (∀ meas pt pf es points σ,
     pt < length (heap σ) → pf < length (heap σ) →
     ∃ new σ',
       create_points meas pt pf es points σ = (inr (points ++ new), σ') ∧
       heap σ `prefix_of` heap σ' ∧
       NoDup (refs new) ∧
       Forall (λ l, length (heap σ) ≤ l < length (heap σ')) (refs new))
  ∧ (∀ σ pts σ',
       collect_all w args config (syncthings config) [] σ = (inr pts, σ') →
       NoDup (refs pts)).
Proof.
  split.
  - intros meas pt pf es points σ Hpt Hpf.
    eexists _, _. split; [by apply create_points_run|]. cbn [heap].
    split; [by apply prefix_app_r|].
    rewrite refs_new_points. split; [apply NoDup_seq|].
    apply Forall_forall. intros l Hl%elem_of_seq.
    rewrite length_app, length_point_objects. lia.
  - intros σ pts σ' Hrun.
    apply collect_all_run in Hrun as (_ & groups & -> & _ & _ & _ & Hnd).
    exact Hnd.
Qed.

Lemma points_own_their_dictionaries_witness :
  NoDup (refs [ {| measurement := "devices"; tags := 2; fields := 3 |};
                {| measurement := "devices"; tags := 4; fields := 5 |};
                {| measurement := "folders"; tags := 6; fields := 7 |} ]).
Proof.
  apply (proj2 (points_own_their_dictionaries healthy_world (example_args 1 60 false)
                  home_config)
           initial_state _ collected_home.2).
  vm_compute. reflexivity.
Defined.

(** C8.  When the sources yield no point, [main] returns at once: the
    state is the one the collection left, and no event of the call
    constructs a sink client or writes to a sink. *)
Theorem empty_batch_skips_dispatch w args config σ σ1 :
  collect_all w args config (syncthings config) [] σ = (inr [], σ1) →
  main w args config σ = (inr (), σ1) ∧
  ∃ evs, trace σ1 = trace σ ++ evs ∧ Forall (λ ev, ¬ is_sink_event ev) evs.
Proof.
  intros Hall. split.
  - unfold main. by rewrite run_bind, Hall.
  - apply collect_all_run in Hall as (_ & groups & _ & Htr & _).
    eexists. split; [exact Htr|]. apply Forall_forall.
    intros ev Hev. by eapply collect_events_not_sink.
Qed.

Lemma empty_batch_skips_dispatch_witness :
  let config := example_config [example_source "attic" "lonely" None] ["a"] in
  let args := example_args 1 60 false in
  let σ1 := (collect_all healthy_world args config (syncthings config) []
               initial_state).2 in
  main healthy_world args config initial_state = (inr (), σ1) ∧
  ∃ evs, trace σ1 = trace initial_state ++ evs ∧
         Forall (λ ev, ¬ is_sink_event ev) evs.
Proof.
  cbv zeta. apply empty_batch_skips_dispatch. vm_compute. reflexivity.
Defined.

(** C9.  With a topology whose default folder lists at least one device,
    indexing its first entry succeeds: whatever happens later in the
    collection, [proto_tags] (the object [collect] creates first) has got
    the device id of that entry under [my_id].  With an empty list the
    collection raises [IndexError], having created [proto_tags] only: no
    point is made for the source. *)
Theorem own_device_is_first_default_device w args config sync points σ cfg :
  (∀ t, new_syncthing w t (get_client_params sync) = None) →
  (∀ t, system_config w t (get_client_params sync) = inr cfg) →
  match cfg_defaults_folder_devices cfg with
  | my_device :: _ =>
      ∀ r σ', collect w args config sync points σ = (r, σ') →
        deref (heap σ') (length (heap σ)) !! "my_id"
          = Some (VStr (fd_deviceID my_device))
  | [] =>
      ∃ σ', collect w args config sync points σ = (inl IndexError, σ') ∧
            heap σ' = heap σ ++ [static_proto_tags sync]
  end.
Proof.
  intros Hnew Hcfg.
  pose proof (collect_unfold w args config sync points σ) as Hc. cbn zeta in Hc.
  rewrite Hnew, Hcfg in Hc.
  destruct (cfg_defaults_folder_devices cfg) as [|my_device rest].
  - eexists. split; [exact Hc|done].
  - intros r σ' Hrun. rewrite Hc in Hrun.
    destruct (stats_device w _ _) as [e|stats].
    + injection Hrun as <- <-. cbn [heap later].
      rewrite deref_middle. apply lookup_insert_eq.
    + eapply collect_entities_run in Hrun as (_ & (T' & k & -> & HT) & _); [|done].
      rewrite deref_middle, HT by done. apply lookup_insert_eq.
Qed.

Lemma own_device_is_first_default_device_witness :
  let config := example_config [example_source "bare" "headless" None] ["a"] in
  let args := example_args 1 60 false in
  ∃ σ', collect healthy_world args config (example_source "bare" "headless" None)
          [] initial_state = (inl IndexError, σ') ∧
        heap σ' = heap initial_state
                    ++ [static_proto_tags (example_source "bare" "headless" None)].
Proof.
  cbv zeta.
  apply (own_device_is_first_default_device healthy_world (example_args 1 60 false)
           (example_config [example_source "bare" "headless" None] ["a"])
           (example_source "bare" "headless" None) [] initial_state
           headless_topology).
  - intros t. reflexivity.
  - intros t. reflexivity.
Defined.

(** C5.  [send_all] attempts the sinks in turn, each with one client and,
    unless the client cannot be made, one write of the whole batch.
    Without [--halt-on-send-error] it never raises: every sink is
    attempted, and every failure is printed.  With it, the first failure
    is raised and the sinks after it are not attempted. *)
Theorem sink_failures_are_isolated w args config points σ :
  NoDup (influxes config).*1 →
  let vals := resolve (heap σ) <$> points in
  let outcomes := sink_outcomes w (tick σ) vals (influxes config) in
  ∃ r σ',
    send_all w args config (influxes config) points σ = (r, σ') ∧
    heap σ' = heap σ ∧
    if arg_halt_on_send_error args then
      match first_failure outcomes with
      | None =>
          r = inr () ∧
          trace σ' = trace σ ++ concat (zip_with
            (attempt_events args (length points) vals)
            (influxes config) outcomes)
      | Some (k, e) =>
          r = inl e ∧
          trace σ' = trace σ ++ concat (zip_with
            (attempt_events args (length points) vals)
            (influxes config) (take (S k) outcomes))
      end
    else
      r = inr () ∧
      trace σ' = trace σ ++ concat (zip_with
        (λ item o, attempt_events args (length points) vals item o
                     ++ report_events o)
        (influxes config) outcomes).
Proof. intros Hnd. by apply send_all_run. Qed.

Lemma sink_failures_are_isolated_witness :
  let config := example_config [] ["bad"; "good"] in
  let args := example_args 1 60 false in
  let σ := collected_home.2 in
  let points := [ {| measurement := "devices"; tags := 2; fields := 3 |};
                  {| measurement := "devices"; tags := 4; fields := 5 |};
                  {| measurement := "folders"; tags := 6; fields := 7 |} ] in
  let vals := resolve (heap σ) <$> points in
  let outcomes := sink_outcomes healthy_world (tick σ) vals (influxes config) in
  ∃ r σ',
    send_all healthy_world args config (influxes config) points σ = (r, σ') ∧
    heap σ' = heap σ ∧
    r = inr () ∧
    trace σ' = trace σ ++ concat (zip_with
      (λ item o, attempt_events args 3 vals item o ++ report_events o)
      (influxes config) outcomes).
Proof.
  cbv zeta.
  apply (sink_failures_are_isolated healthy_world (example_args 1 60 false)
           (example_config [] ["bad"; "good"])).
  apply (bool_decide_unpack _). vm_compute. exact I.
Defined.

(** C3, as the code has it.  Nothing in [main] catches an exception of the
    collection.  When the topology fetch or the device-statistics fetch of
    a source fails, [main] ends with that exception: the sources before it
    and the failing one are the only ones contacted, the points collected
    so far are dropped, and no sink client is made and nothing is
    written. *)
Theorem connection_failure_aborts_main w args config before name sync after
    σ pts σ1 e :
  syncthings config = before ++ (name, sync) :: after →
  collect_all w args config before [] σ = (inr pts, σ1) →
  (∀ t, new_syncthing w t (get_client_params sync) = None) →
  (∀ t, system_config w t (get_client_params sync) = inl e)
  ∨ (∃ cfg, (∀ t, system_config w t (get_client_params sync) = inr cfg) ∧
            cfg_defaults_folder_devices cfg ≠ [] ∧
            ∀ t, stats_device w t (get_client_params sync) = inl e) →
  ∃ σ', main w args config σ = (inl e, σ') ∧
        trace σ' = trace σ ++ ((before.*2 ++ [sync]) ≫= collect_events args).
Proof.
  intros Hsyncs Hbefore Hnew Hfail.
  pose proof (collect_unfold w args config sync pts σ1) as Hc. cbn zeta in Hc.
  rewrite Hnew in Hc.
  destruct Hfail as [Hcfg|(cfg & Hcfg & Hdef & Hstats)].
  - rewrite Hcfg in Hc. eexists. by eapply main_collect_failure.
  - rewrite Hcfg in Hc.
    destruct (cfg_defaults_folder_devices cfg) as [|my_device rest]; [done|].
    rewrite Hstats in Hc. eexists. by eapply main_collect_failure.
Qed.

Lemma connection_failure_aborts_main_witness :
  let down := example_source "first" "down" None in
  let home := example_source "home" "h1" None in
  let args := example_args 1 60 false in
  ∃ σ', main healthy_world args (example_config [down; home] ["a"]) initial_state
          = (inl (LibraryError "connection refused"), σ') ∧
        trace σ' = trace initial_state ++ ([down] ≫= collect_events args).
Proof.
  cbv zeta.
  apply (connection_failure_aborts_main healthy_world (example_args 1 60 false)
           (example_config [example_source "first" "down" None;
                            example_source "home" "h1" None] ["a"])
           [] "first" (example_source "first" "down" None)
           [("home", example_source "home" "h1" None)]
           initial_state [] initial_state).
  - reflexivity.
  - reflexivity.
  - intros t. reflexivity.
  - left. intros t. reflexivity.
Defined.

(** C3 as stated fails: with a first source that refuses the connection
    and a healthy second one, [main] ends with the error of the first; the
    second source is never contacted and nothing is written. *)
Lemma connection_failure_stops_the_cycle :
  let down := example_source "first" "down" None in
  let home := example_source "home" "h1" None in
  let run := main healthy_world (example_args 1 60 false)
               (example_config [down; home] ["a"]) initial_state in
  run.1 = inl (LibraryError "connection refused") ∧
  trace run.2 = [Print (MsgConnect "first"); NewSyncthing (get_client_params down)].
Proof. cbv zeta. split; vm_compute; reflexivity. Qed.

(** C2, as the code has it.  Nothing in [main] catches an exception of the
    two entity loops.  When a remote device of a source has no entry in
    the device statistics, or the completion query of one of its folders
    fails, [main] ends with an exception of such an entity: no point of
    any source is written, no sink client is made, and the sources after
    the failing one are not contacted. *)
Theorem entity_failure_aborts_main w args config before name sync after
    σ pts σ1 cfg my_device rest stats :
  syncthings config = before ++ (name, sync) :: after →
  collect_all w args config before [] σ = (inr pts, σ1) →
  (∀ t, new_syncthing w t (get_client_params sync) = None) →
  (∀ t, system_config w t (get_client_params sync) = inr cfg) →
  cfg_defaults_folder_devices cfg = my_device :: rest →
  (∀ t, stats_device w t (get_client_params sync) = inr stats) →
  (∃ d, d ∈ cfg_devices cfg ∧ missing_stats (fd_deviceID my_device) stats d)
  ∨ (∃ f e, f ∈ cfg_folders cfg ∧
       ∀ t, database_completion w t (get_client_params sync)
              (fd_deviceID my_device) (folder_id f) = inl e) →
  ∃ e σ', main w args config σ = (inl e, σ') ∧
          entity_failure w (get_client_params sync) cfg (fd_deviceID my_device)
            stats e ∧
          trace σ' = trace σ ++ ((before.*2 ++ [sync]) ≫= collect_events args).
Proof.
  intros Hsyncs Hbefore Hnew Hcfg Hdef Hstats Hfail.
  pose proof (collect_unfold w args config sync pts σ1) as Hc. cbn zeta in Hc.
  rewrite Hnew, Hcfg, Hdef, Hstats in Hc.
  edestruct (collect_entities_fail w config sync pts) as (e & σ' & Hrun); [exact Hfail|].
  rewrite Hrun in Hc.
  eapply collect_entities_run in Hrun as (_ & _ & Hwhy); [|done].
  exists e, σ'.
  destruct (main_collect_failure w args config _ _ _ _ _ _ _ _ _ Hsyncs Hbefore Hc).
  done.
Qed.

Lemma entity_failure_aborts_main_witness :
  let home := example_source "home" "h1" None in
  let args := example_args 1 60 false in
  ∃ e σ', main partial_world args (example_config [home] ["a"]) initial_state
            = (inl e, σ') ∧
          entity_failure partial_world (get_client_params home) example_topology
            "ME" (stats_of ["D1"]) e ∧
          trace σ' = trace initial_state ++ ([home] ≫= collect_events args).
Proof.
  cbv zeta.
  apply (entity_failure_aborts_main partial_world (example_args 1 60 false)
           (example_config [example_source "home" "h1" None] ["a"])
           [] "home" (example_source "home" "h1" None) []
           initial_state [] initial_state example_topology
           {| fd_deviceID := "ME" |} [] (stats_of ["D1"])).
  - reflexivity.
  - reflexivity.
  - intros t. reflexivity.
  - intros t. reflexivity.
  - reflexivity.
  - intros t. reflexivity.
  - left. exists {| dev_deviceID := "D2"; dev_name := "two" |}. split.
    + apply list_elem_of_lookup. by exists 2.
    + split; [discriminate|]. vm_compute. reflexivity.
Defined.

(** C2 as stated fails: with two remote devices of which ["D2"] has no
    statistics and one folder, [main] ends with [KeyError] for ["D2"]; no
    point is written. *)
Lemma missing_stats_is_fatal :
  let home := example_source "home" "h1" None in
  let run := main partial_world (example_args 1 60 false)
               (example_config [home] ["a"]) initial_state in
  run.1 = inl (KeyError "D2") ∧
  written (trace run.2) = [] ∧
  trace run.2 = [Print (MsgConnect "home"); NewSyncthing (get_client_params home)].
Proof. cbv zeta. repeat split; vm_compute; reflexivity. Qed.

(** C4: what the code does with [--config-dir].  Whatever else is on the
    command line, the script ends in [parser.error] (exit status 2) before
    any interaction: the directory is not listed and no file is loaded.
    The exclusivity check sees the default [syncflux.yml] that the line
    before it has just stored in [args.config]. *)
Theorem config_dir_is_always_rejected w fuel config dir count wait silent verbose
    halt σ :
  ∃ σ',
    script w fuel {| arg_config := config; arg_config_dir := Some dir;
                     arg_count := count; arg_wait := wait;
                     arg_silent := silent; arg_verbose := verbose;
                     arg_halt_on_send_error := halt |} σ
      = (inl (SystemExit 2), σ') ∧
    tick σ' = tick σ ∧ heap σ' = heap σ.
Proof.
  unfold script, check_args. rewrite run_bind. cbn [arg_silent arg_verbose arg_config].
  destruct (silent && verbose).
  { rewrite run_bind. by eexists. }
  rewrite run_bind, run_ret.
  destruct config as [c|]; cbn; by eexists.
Qed.

(** C6: what the code does after a pass that is not the last.  With a wait
    of 5 seconds, after a pass of 2 seconds the message announces a wait
    of 3 seconds and the script sleeps 5; after a pass of 7 seconds it
    does not sleep; after the last pass it does not sleep either.  A whole
    run of two passes of 12 seconds with a wait of 60 seconds announces a
    wait of 48 seconds once, and sleeps 60. *)
Theorem after_pass_sleeps_the_whole_wait :
  let args := example_args 2 5 false in
  let run := script healthy_world 2 (example_args 2 60 false) initial_state in
  trace (after_pass args 1 2 initial_state).2
    = [Print (MsgPassWaiting 1 2 3); Sleep 5; Print MsgBlank] ∧
  trace (after_pass args 1 7 initial_state).2 = [Print MsgBlank] ∧
  trace (after_pass args 2 2 initial_state).2
    = [Print (MsgPassElapsed 2 2); Print MsgBlank] ∧
  run.1 = inr true ∧
  announced (trace run.2) = [(12, 48)%Q] ∧
  slept (trace run.2) = [60%Q].
Proof. cbv zeta. repeat split; vm_compute; reflexivity. Qed.

(** ** Further properties *)

(** *** The loops over devices and folders *)

Lemma own_name_cons_own my_id d devices :
  dev_deviceID d = my_id →
  own_name my_id (d :: devices)
  = Some (default (dev_name d) (own_name my_id devices)).
Proof.
  intros Hd. unfold own_name. rewrite filter_cons_True by done.
  rewrite fmap_cons, last_cons. by destruct (last _).
Qed.

Lemma own_name_cons_other my_id d devices :
  dev_deviceID d ≠ my_id → own_name my_id (d :: devices) = own_name my_id devices.
Proof. intros Hd. unfold own_name. by rewrite filter_cons_False. Qed.

Section EntityLoops.
Context (w : World) (args : Args) (config : AppConfiguration).

(** The device loop, when it succeeds: one entity per remote device, in
    order; no interaction; [proto_tags] gets the own name. *)
Lemma list_remote_devices_exact now my_id pt stats devices : ∀ acc σ res σ',
  pt < length (heap σ) →
  list_remote_devices w now my_id pt stats devices acc σ = (inr res, σ') →
  ∃ new, res = acc ++ new ∧
    Forall2 (device_entity_of w now stats) (remote my_id devices) new ∧
    σ' = {| heap := <[pt := with_own_name my_id devices (deref (heap σ) pt)]> (heap σ);
            tick := tick σ; trace := trace σ |}.
Proof.
  induction devices as [|d devices IH]; intros acc σ res σ' Hpt Hrun.
  - cbn in Hrun. rewrite run_ret in Hrun. injection Hrun as <- <-.
    exists []. rewrite app_nil_r. split; [done|]. split; [constructor|].
    unfold with_own_name. cbn. by rewrite insert_deref, state_eta.
  - cbn [list_remote_devices] in Hrun. rewrite run_bind in Hrun.
    unfold remote. destruct (decide (dev_deviceID d = my_id)) as [Heq|Hne].
    + rewrite filter_cons_False by (intros Hn; exact (Hn Heq)).
      rewrite run_bind in Hrun. unfold dict_setitem in Hrun.
      rewrite run_modify, run_ret in Hrun.
      apply IH in Hrun as (new & -> & Hnew & ->);
        [|by cbn; rewrite length_insert].
      exists new. split; [done|]. split; [done|]. cbn [heap tick trace].
      rewrite deref_insert_eq, list_insert_insert_eq by done.
      do 2 f_equal. unfold with_own_name.
      rewrite (own_name_cons_own _ _ _ Heq).
      destruct (own_name my_id devices); cbn; [|done].
      by rewrite insert_insert_eq.
    + rewrite filter_cons_True by done.
      rewrite run_bind in Hrun. unfold getitem in Hrun.
      destruct (stats !! dev_deviceID d) as [st|] eqn:Hst; [|done].
      rewrite run_ret, run_bind in Hrun.
      destruct (parse_datetime w (lastSeen st)) as [e|ls] eqn:Hparse; [done|].
      cbn in Hrun. apply IH in Hrun as (new & -> & Hnew & ->); [|done].
      exists (device_entity d (now - ls)%Q :: new).
      split; [by rewrite <- (assoc_L (++))|]. split.
      * constructor; [by exists st, ls|done].
      * unfold with_own_name. by rewrite (own_name_cons_other _ _ _ Hne).
Qed.

(** The folder loop, when it succeeds: one entity and one interaction per
    folder, in order; the store is untouched. *)
Lemma list_folders_exact conn my_id fs : ∀ acc σ res σ',
  list_folders w conn my_id fs acc σ = (inr res, σ') →
  ∃ new, res = acc ++ new ∧
    Forall2 (folder_entity_of w conn my_id) fs new ∧
    σ' = {| heap := heap σ; tick := length fs + tick σ; trace := trace σ |}.
Proof.
  induction fs as [|f fs IH]; intros acc σ res σ' Hrun.
  - cbn in Hrun. rewrite run_ret in Hrun. injection Hrun as <- <-.
    exists []. rewrite app_nil_r. split; [done|]. split; [constructor|].
    by rewrite state_eta.
  - cbn [list_folders] in Hrun. rewrite run_bind, run_ask_lift in Hrun.
    destruct (database_completion w (tick σ) conn my_id (folder_id f)) as [e|c] eqn:Hc;
      [done|].
    apply IH in Hrun as (new & -> & Hnew & ->). cbn [heap tick trace].
    exists (folder_entity f c :: new).
    split; [by rewrite <- (assoc_L (++))|]. split.
    + constructor; [by exists (tick σ), c|done].
    + cbn [length]. f_equal. lia.
Qed.

End EntityLoops.

Section CollectExact.
Context (w : World) (args : Args) (config : AppConfiguration).

(** A successful collection, in full: the answers it used, the entities
    it made from them, the points it appended and their values. *)
Lemma collect_exact sync points σ pts σ' :
  collect w args config sync points σ = (inr pts, σ') →
  ∃ cfg my_id stats devs folders,
    reported w sync (3 + tick σ) cfg my_id ∧
    stats_device w (4 + tick σ) (get_client_params sync) = inr stats ∧
    Forall2 (device_entity_of w (clock w (2 + tick σ)) stats)
      (remote my_id (cfg_devices cfg)) devs ∧
    Forall2 (folder_entity_of w (get_client_params sync) my_id)
      (cfg_folders cfg) folders ∧
    let T := with_own_name my_id (cfg_devices cfg)
               (<["my_id" := VStr my_id]> (static_proto_tags sync)) in
    let F := proto_fields_value
               (clock w (5 + length (cfg_folders cfg) + tick σ) - clock w (tick σ)) in
    let new := new_points (meas_devices (measurements config))
                 (2 + length (heap σ)) devs
               ++ new_points (meas_folders (measurements config))
                    (2 + length (heap σ) + 2 * length devs) folders in
    pts = points ++ new ∧
    resolve (heap σ') <$> new
      = (point_value (meas_devices (measurements config)) T F <$> devs)
        ++ (point_value (meas_folders (measurements config)) T F <$> folders) ∧
    tick σ' = 6 + length (cfg_folders cfg) + tick σ.
Proof.
  intros Hrun.
  pose proof (collect_unfold w args config sync points σ) as Hc. cbn zeta in Hc.
  rewrite Hc in Hrun. clear Hc.
  destruct (new_syncthing w _ _); [done|].
  destruct (system_config w _ _) as [|cfg] eqn:Hcfg; [done|].
  destruct (cfg_defaults_folder_devices cfg) as [|my_device rest] eqn:Hdef; [done|].
  destruct (stats_device w _ _) as [|stats] eqn:Hstats; [done|].
  unfold collect_entities in Hrun. rewrite run_bind in Hrun.
  destruct (list_remote_devices _ _ _ _ _ _ _ _) as [[|devs] σ1] eqn:Hdevs; [done|].
  apply list_remote_devices_exact in Hdevs as (devs' & -> & Hdevs & ->);
    [|cbn; rewrite length_app; cbn; lia].
  cbn [app later heap tick trace] in *.
  rewrite deref_middle, insert_last in Hrun.
  rewrite run_bind in Hrun.
  destruct (list_folders _ _ _ _ _ _) as [[|folders] σ2] eqn:Hfolders; [done|].
  apply list_folders_exact in Hfolders as (folders' & -> & Hfolders & ->).
  cbn [app heap tick trace] in *.
  rewrite run_bind, run_ask in Hrun. rewrite run_bind, run_alloc in Hrun.
  cbn [heap tick trace] in Hrun.
  rewrite run_bind, create_points_run in Hrun by (cbn; rewrite !length_app; cbn; lia).
  cbn [heap tick trace] in Hrun.
  rewrite create_points_run in Hrun by (cbn; rewrite !length_app; cbn; lia).
  cbn [heap tick trace] in Hrun. injection Hrun as <- <-. cbn [heap tick trace].
  pose proof (Forall2_length _ _ _ Hfolders) as Hlen.
  exists cfg, (fd_deviceID my_device), stats, devs', folders'.
  split; [split; [exact Hcfg|by rewrite Hdef]|].
  split; [first [exact Hstats|reflexivity]|]. split; [exact Hdevs|]. split; [exact Hfolders|].
  cbn zeta.
  set (T := with_own_name _ _ _).
  replace (length (cfg_folders cfg) + S (S (S (S (S (tick σ))))))
    with (5 + length (cfg_folders cfg) + tick σ) by lia.
  change {[ "q_elapsed" := VNum ?q ]} with (proto_fields_value q).
  set (F' := proto_fields_value _).
  assert (HdT : ∀ k, deref (((heap σ ++ [T]) ++ [F']) ++ k) (length (heap σ)) = T).
  { intros k. rewrite <- !(assoc_L (++)). apply deref_middle. }
  assert (HdF : ∀ k, deref (((heap σ ++ [T]) ++ [F']) ++ k)
                       (length (heap σ ++ [T])) = F').
  { intros k. rewrite <- (assoc_L (++) (heap σ ++ [T])). apply deref_middle. }
  pose proof (HdT []) as HdT0. pose proof (HdF []) as HdF0.
  rewrite app_nil_r in HdT0, HdF0.
  rewrite ?HdT, ?HdF, ?HdT0, ?HdF0.
  split; [|split; [|lia]].
  - rewrite <- (assoc_L (++)). do 2 f_equal.
    + f_equal. rewrite !length_app. cbn. lia.
    + f_equal. rewrite !length_app, length_point_objects. cbn. lia.
  - rewrite fmap_app. f_equal.
    + replace (2 + length (heap σ)) with (length ((heap σ ++ [T]) ++ [F']))
        by (rewrite !length_app; cbn; lia).
      rewrite <- (assoc_L (++) _ (point_objects T F' devs')).
      apply resolve_new_points.
    + replace (2 + length (heap σ) + 2 * length devs')
        with (length (((heap σ ++ [T]) ++ [F']) ++ point_objects T F' devs'))
        by (rewrite !length_app, length_point_objects; cbn; lia).
      rewrite <- (app_nil_r (point_objects T F' folders')).
      apply resolve_new_points.
Qed.

End CollectExact.

Lemma length_new_points meas es : ∀ base, length (new_points meas base es) = length es.
Proof. induction es as [|e es IH]; intros base; cbn; [done|]. by rewrite IH. Qed.

Lemma with_own_name_lookup my_id devices T k :
  k ≠ "my_name" → with_own_name my_id devices T !! k = T !! k.
Proof.
  intros Hk. unfold with_own_name. destruct (own_name my_id devices); [|done].
  by rewrite lookup_insert_ne.
Qed.

Lemma with_own_name_my_name my_id devices T :
  with_own_name my_id devices T !! "my_name"
  = match own_name my_id devices with
    | Some n => Some (VStr n)
    | None => T !! "my_name"
    end.
Proof.
  unfold with_own_name. destruct (own_name my_id devices); [|done].
  apply lookup_insert_eq.
Qed.

Lemma device_point_value w config now q stats my_id devices static d e :
  device_entity_of w now stats d e →
  device_point w config now q stats my_id d
    (point_value (meas_devices (measurements config))
       (with_own_name my_id devices (<["my_id" := VStr my_id]> static))
       (proto_fields_value q) e).
Proof.
  intros (st & ls & Hst & Hparse & ->).
  unfold device_point, point_value, device_entity, updated. cbn.
  split; [done|]. split; [|split; [|split]].
  - apply lookup_union_Some_l. apply lookup_insert_eq.
  - apply lookup_union_Some_l. rewrite lookup_insert_ne by done.
    apply lookup_singleton_eq.
  - rewrite lookup_union_r.
    + rewrite with_own_name_lookup by done. apply lookup_insert_eq.
    + rewrite lookup_insert_ne by done. by apply lookup_singleton_ne.
  - exists st, ls. split; [done|]. split; [done|].
    unfold proto_fields_value. by rewrite insert_union_singleton_l.
Qed.

Lemma folder_point_value w config q conn my_id devices static f e :
  folder_entity_of w conn my_id f e →
  folder_point w config q conn my_id f
    (point_value (meas_folders (measurements config))
       (with_own_name my_id devices (<["my_id" := VStr my_id]> static))
       (proto_fields_value q) e).
Proof.
  intros (t & c & Hc & ->).
  unfold folder_point, point_value, folder_entity, updated. cbn.
  split; [done|]. split; [|split; [|split; [|split]]].
  - apply lookup_union_Some_l. apply lookup_insert_eq.
  - apply lookup_union_Some_l. rewrite lookup_insert_ne by done.
    apply lookup_insert_eq.
  - apply lookup_union_Some_l. rewrite !lookup_insert_ne by done.
    apply lookup_singleton_eq.
  - rewrite lookup_union_r.
    + rewrite with_own_name_lookup by done. apply lookup_insert_eq.
    + rewrite !lookup_insert_ne by done. by apply lookup_singleton_ne.
  - exists t, c. split; [done|].
    unfold proto_fields_value. by rewrite insert_union_singleton_l.
Qed.

Section CollectPoints.
Context (w : World) (args : Args) (config : AppConfiguration).

(** A successful collection appends the device points and then the folder
    points, and gives the values of both. *)
Lemma collect_points sync points σ pts σ' :
  collect w args config sync points σ = (inr pts, σ') →
  ∃ cfg my_id stats dev_pts folder_pts,
    reported w sync (3 + tick σ) cfg my_id ∧
    stats_device w (4 + tick σ) (get_client_params sync) = inr stats ∧
    pts = points ++ dev_pts ++ folder_pts ∧
    tick σ' = 6 + length (cfg_folders cfg) + tick σ ∧
    let q := (clock w (5 + length (cfg_folders cfg) + tick σ) - clock w (tick σ))%Q in
    Forall2 (λ d p, device_point w config (clock w (2 + tick σ)) q stats my_id d
                      (resolve (heap σ') p))
      (remote my_id (cfg_devices cfg)) dev_pts ∧
    Forall2 (λ f p, folder_point w config q (get_client_params sync) my_id f
                      (resolve (heap σ') p))
      (cfg_folders cfg) folder_pts ∧
    ∀ p, p ∈ dev_pts ++ folder_pts →
      pv_tags (resolve (heap σ') p) !! "my_name"
      = match own_name my_id (cfg_devices cfg) with
        | Some n => Some (VStr n)
        | None => static_proto_tags sync !! "my_name"
        end.
Proof.
  intros Hrun.
  destruct (collect_exact w args config _ _ _ _ _ Hrun)
    as (cfg & my_id & stats & devs & folders & Hrep & Hstats & Hdevs & Hfolders & H).
  cbn zeta in H. destruct H as (-> & Hvals & Htick).
  eexists cfg, my_id, stats, _, _. split; [done|]. split; [done|].
  split; [reflexivity|]. split; [done|]. cbn zeta.
  rewrite fmap_app in Hvals.
  apply app_inj_1 in Hvals as [Hdv Hfv];
    [|by rewrite !length_fmap, length_new_points].
  split; [|split].
  - apply (proj1 (Forall2_fmap_r (resolve (heap σ'))
                     (device_point w config _ _ stats my_id) _ _)).
    rewrite Hdv. apply Forall2_fmap_r. eapply Forall2_impl; [exact Hdevs|].
    intros d e He. by apply device_point_value.
  - apply (proj1 (Forall2_fmap_r (resolve (heap σ'))
                     (folder_point w config _ _ my_id) _ _)).
    rewrite Hfv. apply Forall2_fmap_r. eapply Forall2_impl; [exact Hfolders|].
    intros f e He. by apply folder_point_value.
  - intros p Hp.
    assert (Hin : resolve (heap σ') p ∈ resolve (heap σ') <$> _)
      by (apply list_elem_of_fmap; by exists p).
    rewrite fmap_app, Hdv, Hfv in Hin.
    apply elem_of_app in Hin as [Hin|Hin];
      apply list_elem_of_fmap in Hin as (e & -> & He).
    + apply list_elem_of_lookup in He as [i Hi].
      destruct (Forall2_lookup_r _ _ _ _ _ Hdevs Hi) as (d & _ & st & ls & _ & _ & ->).
      unfold point_value, updated. cbn [pv_tags ent_tags device_entity].
      rewrite lookup_union_r.
      * rewrite with_own_name_my_name. destruct (own_name _ _); [done|].
        by rewrite lookup_insert_ne.
      * rewrite lookup_insert_ne by done. by apply lookup_singleton_ne.
    + apply list_elem_of_lookup in He as [i Hi].
      destruct (Forall2_lookup_r _ _ _ _ _ Hfolders Hi) as (f & _ & t & c & _ & ->).
      unfold point_value, updated. cbn [pv_tags ent_tags folder_entity].
      rewrite lookup_union_r.
      * rewrite with_own_name_my_name. destruct (own_name _ _); [done|].
        by rewrite lookup_insert_ne.
      * rewrite !lookup_insert_ne by done. by apply lookup_singleton_ne.
Qed.

End CollectPoints.

(** *** What [main] writes *)

Lemma written_app evs1 evs2 : written (evs1 ++ evs2) = written evs1 ++ written evs2.
Proof. apply omap_app. Qed.

Lemma elem_of_written evs batch :
  batch ∈ written evs ↔ ∃ c, WritePoints c batch ∈ evs.
Proof.
  unfold written. rewrite list_elem_of_omap. split.
  - intros (ev & Hev & Hb). destruct ev; try done. injection Hb as <-. by eexists.
  - intros (c & Hc). by exists (WritePoints c batch).
Qed.

Lemma source_points_my_id w config sync T q vs pv :
  source_points w config sync T q vs → pv ∈ vs →
  ∃ cfg my_id t, reported w sync t cfg my_id ∧
                 pv_tags pv !! "my_id" = Some (VStr my_id).
Proof.
  intros Hsrc Hin.
  destruct (source_points_inv _ _ _ _ _ _ _ Hsrc Hin) as (meas & e & -> & He).
  destruct Hsrc as (_ & _ & cfg & my_id & _ & _ & (t & Hrep) & HT & _).
  exists cfg, my_id, t. split; [done|].
  cbn. unfold updated. rewrite lookup_union_r.
  - rewrite HT by done. apply lookup_insert_eq.
  - destruct He as [[d Hd]|[f Hf]].
    + by eapply device_entity_tags.
    + by eapply folder_entity_tags.
Qed.

Section Dispatch.
Context (w : World) (args : Args) (config : AppConfiguration).

(** [main] after a successful collection of at least one point. *)
Lemma main_sends p pts σ σ1 :
  collect_all w args config (syncthings config) [] σ = (inr (p :: pts), σ1) →
  main w args config σ = send_all w args config (influxes config) (p :: pts) σ1.
Proof. intros Hall. unfold main. by rewrite run_bind, Hall. Qed.

(** The events of the sink loop: every write carries the whole batch. *)
Lemma send_all_writes points σ r σ' :
  NoDup (influxes config).*1 →
  send_all w args config (influxes config) points σ = (r, σ') →
  ∃ evs, trace σ' = trace σ ++ evs ∧
    (∀ b, b ∈ written evs → b = resolve (heap σ) <$> points) ∧
    (arg_halt_on_send_error args = false → r = inr ()).
Proof.
  intros Hnd Hrun.
  destruct (send_all_run w args config (influxes config) points σ Hnd ltac:(done))
    as (r' & σ'' & Hrun' & _ & Hr).
  rewrite Hrun in Hrun'. injection Hrun' as <- <-.
  destruct (arg_halt_on_send_error args).
  - destruct (first_failure _) as [[k e]|]; destruct Hr as [_ ->];
      (eexists; split; [done|]); (split; [|done]); intros b (c & Hin)%elem_of_written;
      apply elem_of_concat_zip_with in Hin as (item & o & _ & _ & Hin);
      eapply (attempt_events_write _ _ _ _ o);
      apply elem_of_app; left; exact Hin.
  - destruct Hr as [-> ->]. eexists. split; [done|]. split; [|done].
    intros b (c & Hin)%elem_of_written.
    apply elem_of_concat_zip_with in Hin as (item & o & _ & _ & Hin).
    by eapply attempt_events_write.
Qed.

Lemma written_collect_events syncs : written (syncs ≫= collect_events args) = [].
Proof.
  destruct (written _) as [|b bs] eqn:Hw; [done|].
  assert (Hb : b ∈ written (syncs ≫= collect_events args))
    by (rewrite Hw; apply elem_of_cons; by left).
  apply elem_of_written in Hb as (c & Hin).
  by apply collect_events_not_sink in Hin.
Qed.

End Dispatch.

(** X1: the points of one source.  A successful collection appends to the
    points one point per remote device, in the order of the device list,
    and then one point per folder, in the order of the folder list.  A
    device point has the devices measurement, the tags [id] and [name] of
    the device and the field [last_seen_since_sec], the time from the
    parsed [lastSeen] of its statistics to [now]; a folder point has the
    folders measurement, the tags [id], [label] and [path] of the folder
    and the field [completion] that the completion query answered.  Both
    carry the tag [my_id] and the field [q_elapsed]. *)
Theorem collect_makes_device_and_folder_points w args config sync points σ pts σ' :
  collect w args config sync points σ = (inr pts, σ') →
  ∃ cfg my_id stats dev_pts folder_pts,
    reported w sync (3 + tick σ) cfg my_id ∧
    stats_device w (4 + tick σ) (get_client_params sync) = inr stats ∧
    pts = points ++ dev_pts ++ folder_pts ∧
    let q := (clock w (5 + length (cfg_folders cfg) + tick σ) - clock w (tick σ))%Q in
    Forall2 (λ d p, device_point w config (clock w (2 + tick σ)) q stats my_id d
                      (resolve (heap σ') p))
      (remote my_id (cfg_devices cfg)) dev_pts ∧
    Forall2 (λ f p, folder_point w config q (get_client_params sync) my_id f
                      (resolve (heap σ') p))
      (cfg_folders cfg) folder_pts.
Proof.
  intros Hrun.
  destruct (collect_points w args config _ _ _ _ _ Hrun)
    as (cfg & my_id & stats & dev_pts & folder_pts & Hrep & Hstats & -> & _ & H).
  cbn zeta in H. destruct H as (Hdevs & Hfolders & _).
  by exists cfg, my_id, stats, dev_pts, folder_pts.
Qed.

Lemma collect_makes_device_and_folder_points_witness :
  let w := healthy_world in
  let sync := example_source "home" "h1" None in
  let σ := initial_state in
  let σ' := home_collection.2 in
  ∃ cfg my_id stats dev_pts folder_pts,
    reported w sync (3 + tick σ) cfg my_id ∧
    stats_device w (4 + tick σ) (get_client_params sync) = inr stats ∧
    home_points = [] ++ dev_pts ++ folder_pts ∧
    let q := (clock w (5 + length (cfg_folders cfg) + tick σ) - clock w (tick σ))%Q in
    Forall2 (λ d p, device_point w home_config (clock w (2 + tick σ)) q stats my_id d
                      (resolve (heap σ') p))
      (remote my_id (cfg_devices cfg)) dev_pts ∧
    Forall2 (λ f p, folder_point w home_config q (get_client_params sync) my_id f
                      (resolve (heap σ') p))
      (cfg_folders cfg) folder_pts.
Proof.
  cbv zeta.
  apply (collect_makes_device_and_folder_points healthy_world
           (example_args 1 60 false) home_config (example_source "home" "h1" None)
           [] initial_state home_points (home_collection.2)).
  vm_compute. reflexivity.
Defined.

(** X2: the tag [my_name].  Every point of a successful collection has the
    same [my_name]: the name of the last listed device whose id is the own
    id.  When no listed device has the own id, the tag is the static tag
    [my_name] of the source, and absent when there is none. *)
Theorem my_name_is_the_name_of_the_own_device w args config sync points σ pts σ' :
  collect w args config sync points σ = (inr pts, σ') →
  ∃ cfg my_id new,
    reported w sync (3 + tick σ) cfg my_id ∧
    pts = points ++ new ∧
    ∀ p, p ∈ new →
      pv_tags (resolve (heap σ') p) !! "my_name"
      = match own_name my_id (cfg_devices cfg) with
        | Some n => Some (VStr n)
        | None => static_proto_tags sync !! "my_name"
        end.
Proof.
  intros Hrun.
  destruct (collect_points w args config _ _ _ _ _ Hrun)
    as (cfg & my_id & stats & dev_pts & folder_pts & Hrep & Hstats & -> & _ & H).
  cbn zeta in H. destruct H as (_ & _ & Hname).
  by exists cfg, my_id, (dev_pts ++ folder_pts).
Qed.

Lemma my_name_is_the_name_of_the_own_device_witness :
  let w := healthy_world in
  let sync := example_source "home" "h1" None in
  let σ' := home_collection.2 in
  ∃ cfg my_id new,
    reported w sync (3 + tick initial_state) cfg my_id ∧
    home_points = [] ++ new ∧
    ∀ p, p ∈ new →
      pv_tags (resolve (heap σ') p) !! "my_name"
      = match own_name my_id (cfg_devices cfg) with
        | Some n => Some (VStr n)
        | None => static_proto_tags sync !! "my_name"
        end.
Proof.
  cbv zeta.
  apply (my_name_is_the_name_of_the_own_device healthy_world
           (example_args 1 60 false) home_config (example_source "home" "h1" None)
           [] initial_state home_points (home_collection.2)).
  vm_compute. reflexivity.
Defined.

(** X3: the cost of one source.  A successful collection interacts with the
    outside world [6 + n] times for a source with [n] folders: the clock,
    the client, the clock, the configuration, the device statistics, one
    completion query per folder, and the clock; there is no request per
    device. *)
Theorem collect_queries_once_per_folder w args config sync points σ pts σ' :
  collect w args config sync points σ = (inr pts, σ') →
  ∃ cfg my_id,
    reported w sync (3 + tick σ) cfg my_id ∧
    tick σ' = 6 + length (cfg_folders cfg) + tick σ.
Proof.
  intros Hrun.
  destruct (collect_points w args config _ _ _ _ _ Hrun)
    as (cfg & my_id & stats & dev_pts & folder_pts & Hrep & _ & _ & Htick & _).
  by exists cfg, my_id.
Qed.

Lemma collect_queries_once_per_folder_witness :
  let w := healthy_world in
  let sync := example_source "home" "h1" None in
  ∃ cfg my_id,
    reported w sync (3 + tick initial_state) cfg my_id ∧
    tick home_collection.2 = 6 + length (cfg_folders cfg) + tick initial_state.
Proof.
  cbv zeta.
  apply (collect_queries_once_per_folder healthy_world
           (example_args 1 60 false) home_config (example_source "home" "h1" None)
           [] initial_state home_points (home_collection.2)).
  vm_compute. reflexivity.
Defined.

Lemma elem_of_concat_groups {A B} (P : A → list B → Prop) xs groups (b : B) :
  Forall2 P xs groups → b ∈ concat groups →
  ∃ x g, x ∈ xs ∧ P x g ∧ b ∈ g.
Proof.
  induction 1 as [|x g xs groups HP _ IH]; cbn; [by intros ?%elem_of_nil|].
  intros [Hb|Hb]%elem_of_app.
  - exists x, g. split; [apply elem_of_cons; by left|done].
  - destruct (IH Hb) as (x' & g' & Hx & HP' & Hg).
    exists x', g'. split; [apply elem_of_cons; by right|done].
Qed.

(** X4: the tag [my_id] of what is written.  Every point that [main] hands
    to a sink carries as [my_id] the device id that the configuration
    request of its source reported: neither a static tag [my_id] of the
    source nor a tag of a device or folder replaces it. *)
Theorem written_points_carry_the_own_id w args config σ r σ' :
  NoDup (influxes config).*1 →
  main w args config σ = (r, σ') →
  ∃ evs, trace σ' = trace σ ++ evs ∧
    ∀ c batch pv, WritePoints c batch ∈ evs → pv ∈ batch →
      ∃ sync cfg my_id t,
        sync ∈ (syncthings config).*2 ∧
        reported w sync t cfg my_id ∧
        pv_tags pv !! "my_id" = Some (VStr my_id).
Proof.
  intros Hnd Hrun.
  destruct (main_run w args config σ r σ' Hnd Hrun) as (evs & Htr & Hev).
  exists evs. split; [done|]. intros c batch pv Hin Hpv.
  destruct (Hev c batch Hin) as (groups & -> & Hgroups).
  destruct (elem_of_concat_groups _ _ _ _ Hgroups Hpv)
    as (sync & g & Hsync & (T & q & Hsrc) & Hg).
  destruct (source_points_my_id _ _ _ _ _ _ _ Hsrc Hg) as (cfg & my_id & t & Hrep & Hid).
  by exists sync, cfg, my_id, t.
Qed.

Lemma written_points_carry_the_own_id_witness :
  let w := healthy_world in
  let config := example_config
                  [example_source "home" "h1" (Some [("my_id", "static")])] ["a"] in
  let run := main w (example_args 1 60 false) config initial_state in
  ∃ evs, trace run.2 = trace initial_state ++ evs ∧
    ∀ c batch pv, WritePoints c batch ∈ evs → pv ∈ batch →
      ∃ sync cfg my_id t,
        sync ∈ (syncthings config).*2 ∧
        reported w sync t cfg my_id ∧
        pv_tags pv !! "my_id" = Some (VStr my_id).
Proof.
  cbv zeta.
  apply (written_points_carry_the_own_id healthy_world (example_args 1 60 false)
           (example_config
              [example_source "home" "h1" (Some [("my_id", "static")])] ["a"])
           initial_state (inr ())).
  - apply (bool_decide_unpack _). vm_compute. exact I.
  - vm_compute. reflexivity.
Defined.

(** X5: sinks without [--halt-on-send-error].  Once the collection has
    succeeded, [main] returns normally whatever the sinks do: no failure
    of a sink client or of a write leaves [main]. *)
Theorem main_survives_sink_failures w args config σ pts σ1 :
  arg_halt_on_send_error args = false →
  NoDup (influxes config).*1 →
  collect_all w args config (syncthings config) [] σ = (inr pts, σ1) →
  (main w args config σ).1 = inr ().
Proof.
  intros Hhalt Hnd Hall. destruct pts as [|p pts].
  - unfold main. by rewrite run_bind, Hall.
  - rewrite (main_sends w args config p pts σ σ1 Hall).
    destruct (send_all w args config (influxes config) (p :: pts) σ1) as [r σ'] eqn:Hs.
    destruct (send_all_writes w args config _ _ _ _ Hnd Hs) as (_ & _ & _ & Hr).
    by apply Hr.
Qed.

Lemma main_survives_sink_failures_witness :
  (main healthy_world (example_args 1 60 false)
     (example_config [example_source "home" "h1" None] ["bad"; "good"])
     initial_state).1 = inr ().
Proof.
  apply (main_survives_sink_failures healthy_world (example_args 1 60 false)
           (example_config [example_source "home" "h1" None] ["bad"; "good"])
           initial_state home_points home_collection.2).
  - reflexivity.
  - apply (bool_decide_unpack _). vm_compute. exact I.
  - vm_compute. reflexivity.
Defined.

(** X6: one batch for every sink.  All writes of one call of [main] carry
    the same batch, and that batch is not empty. *)
Theorem main_writes_one_batch w args config σ r σ' :
  NoDup (influxes config).*1 →
  main w args config σ = (r, σ') →
  ∃ evs, trace σ' = trace σ ++ evs ∧
    ∀ b, b ∈ written evs → b ≠ [] ∧ ∀ b', b' ∈ written evs → b' = b.
Proof.
  intros Hnd. unfold main. rewrite run_bind.
  destruct (collect_all _ _ _ _ _ _) as [[e|pts] σ1] eqn:Hall.
  - intros [= <- <-].
    apply collect_all_run in Hall
      as (_ & before & name & sync & after & pts & σ0 & _ & _ & _ & Htr).
    eexists. split; [exact Htr|]. intros b Hb.
    by rewrite written_collect_events in Hb; apply elem_of_nil in Hb.
  - pose proof Hall as Hall'.
    apply collect_all_run in Hall' as (_ & groups & _ & Htr & _).
    destruct pts as [|p pts].
    + rewrite run_ret. intros [= <- <-].
      eexists. split; [exact Htr|]. intros b Hb.
      by rewrite written_collect_events in Hb; apply elem_of_nil in Hb.
    + intros Hs.
      destruct (send_all_writes w args config _ _ _ _ Hnd Hs) as (evs & Htr' & Hw & _).
      exists (((syncthings config).*2 ≫= collect_events args) ++ evs).
      split; [by rewrite Htr', Htr, (assoc_L (++))|].
      assert (Hall_w : ∀ b, b ∈ written (((syncthings config).*2 ≫= collect_events args)
                                          ++ evs) →
                b = resolve (heap σ1) <$> p :: pts).
      { intros b. rewrite written_app, written_collect_events. cbn. apply Hw. }
      intros b Hb. split.
      * by rewrite (Hall_w b Hb).
      * intros b' Hb'. by rewrite (Hall_w b Hb), (Hall_w b' Hb').
Qed.

Lemma main_writes_one_batch_witness :
  let config := example_config [example_source "home" "h1" None] ["bad"; "good"] in
  let run := main healthy_world (example_args 1 60 false) config initial_state in
  ∃ evs, trace run.2 = trace initial_state ++ evs ∧
    ∀ b, b ∈ written evs → b ≠ [] ∧ ∀ b', b' ∈ written evs → b' = b.
Proof.
  cbv zeta.
  apply (main_writes_one_batch healthy_world (example_args 1 60 false)
           (example_config [example_source "home" "h1" None] ["bad"; "good"])
           initial_state (inr ())).
  - apply (bool_decide_unpack _). vm_compute. exact I.
  - vm_compute. reflexivity.
Defined.

(** *** What is printed *)

Section Emits.
Context (P : event → Prop).

Lemma emits_silent {A} (m : M A) :
  (∀ σ, trace (m σ).2 = trace σ) → emits P m.
Proof. intros H σ. exists []. by rewrite app_nil_r, H. Qed.

Lemma emits_ret {A} (a : A) : emits P (mret a).
Proof. by apply emits_silent. Qed.

Lemma emits_raise {A} e : emits P (raise e : M A).
Proof. by apply emits_silent. Qed.

Lemma emits_ask {A} (o : nat → A) : emits P (ask o).
Proof. by apply emits_silent. Qed.

Lemma emits_lift {A} (r : exn + A) : emits P (lift r).
Proof. destruct r; by apply emits_silent. Qed.

Lemma emits_lift_status r : emits P (lift_status r).
Proof. destruct r; by apply emits_silent. Qed.

Lemma emits_alloc d : emits P (alloc d).
Proof. by apply emits_silent. Qed.

Lemma emits_read l : emits P (read l).
Proof. by apply emits_silent. Qed.

Lemma emits_modify l f : emits P (modify l f).
Proof. by apply emits_silent. Qed.

Lemma emits_emit ev : P ev → emits P (emit ev).
Proof. intros H σ. exists [ev]. split; [done|]. by constructor. Qed.

Lemma emits_bind {A B} (m : M A) (k : A → M B) :
  emits P m → (∀ a, emits P (k a)) → emits P (m ≫= k).
Proof.
  intros Hm Hk σ. rewrite run_bind.
  destruct (Hm σ) as (evs1 & Htr1 & H1).
  destruct (m σ) as [[e|a] σ1]; cbn in *.
  - by exists evs1.
  - destruct (Hk a σ1) as (evs2 & Htr2 & H2).
    exists (evs1 ++ evs2). rewrite Htr2, Htr1, (assoc_L (++)).
    split; [done|]. by apply Forall_app.
Qed.

Lemma emits_try_except {A} (body : M A) (handler : exn → M A) :
  emits P body → (∀ e, emits P (handler e)) → emits P (try_except body handler).
Proof.
  intros Hm Hk σ. unfold try_except.
  destruct (Hm σ) as (evs1 & Htr1 & H1).
  destruct (body σ) as [[e|a] σ1]; cbn in *.
  - destruct (Hk e σ1) as (evs2 & Htr2 & H2).
    exists (evs1 ++ evs2). rewrite Htr2, Htr1, (assoc_L (++)).
    split; [done|]. by apply Forall_app.
  - by exists evs1.
Qed.

End Emits.

(** The composition rules above, applied until a leaf is left. *)
Ltac emits_step :=
  first
    [ apply emits_bind; [|intros ?]
    | apply emits_ret | apply emits_raise | apply emits_ask
    | apply emits_lift | apply emits_lift_status
    | apply emits_alloc | apply emits_read | apply emits_modify
    | apply emits_try_except; [|intros ?] ].

Section Silent.
Context (w : World) (args : Args) (Hsilent : arg_silent args = true).

Abbreviation quiet := (emits (λ ev, ¬ is_print ev)).

Lemma quiet_info m : quiet (info args m).
Proof. unfold info. rewrite Hsilent. apply emits_ret. Qed.

Lemma quiet_emit ev : ¬ is_print ev → quiet (emit ev).
Proof. apply (emits_emit (λ ev, ¬ is_print ev)). Qed.

Lemma quiet_parser_error {A} msg : quiet (parser_error msg : M A).
Proof. unfold parser_error. repeat emits_step. apply quiet_emit. by intros []. Qed.

Ltac quiet_step :=
  first [ emits_step | apply quiet_info | apply quiet_parser_error
        | apply quiet_emit; by intros [] ].

Lemma quiet_list_remote_devices now my_id pt stats devices : ∀ acc,
  quiet (list_remote_devices w now my_id pt stats devices acc).
Proof.
  induction devices as [|d devices IH]; intros acc; cbn [list_remote_devices].
  - apply emits_ret.
  - apply emits_bind; [|intros ?; apply IH].
    destruct (decide _); unfold dict_setitem, getitem.
    + repeat quiet_step.
    + destruct (stats !! _); repeat quiet_step.
Qed.

Lemma quiet_list_folders conn my_id fs : ∀ acc, quiet (list_folders w conn my_id fs acc).
Proof.
  induction fs as [|f fs IH]; intros acc; cbn [list_folders].
  - apply emits_ret.
  - apply emits_bind; [repeat quiet_step|intros ?; apply IH].
Qed.

Lemma quiet_create_points meas pt pf es : ∀ points,
  quiet (create_points meas pt pf es points).
Proof.
  induction es as [|e es IH]; intros points; cbn [create_points].
  - apply emits_ret.
  - unfold copy, dict_update.
    do 4 (apply emits_bind; [repeat quiet_step|intros ?]). apply IH.
Qed.

Lemma quiet_collect config sync points : quiet (collect w args config sync points).
Proof.
  unfold collect, first_item, dict_setitem.
  apply emits_bind; [apply quiet_info|intros ?].
  apply emits_bind; [repeat quiet_step|intros ?].
  apply emits_bind; [destruct (sync_tags sync) as [[|??]|]; repeat quiet_step|intros ?].
  apply emits_bind; [repeat quiet_step|intros ?].
  apply emits_bind; [repeat quiet_step|intros ?].
  apply emits_bind; [repeat quiet_step|intros ?].
  apply emits_bind; [repeat quiet_step|intros ?].
  apply emits_bind; [repeat quiet_step|intros sync_cfg].
  apply emits_bind;
    [destruct (cfg_defaults_folder_devices sync_cfg); repeat quiet_step|intros ?].
  apply emits_bind; [repeat quiet_step|intros ?].
  apply emits_bind; [repeat quiet_step|intros ?].
  apply emits_bind; [apply quiet_list_remote_devices|intros ?].
  apply emits_bind; [apply quiet_list_folders|intros ?].
  apply emits_bind; [repeat quiet_step|intros ?].
  apply emits_bind; [repeat quiet_step|intros ?].
  apply emits_bind; [apply quiet_create_points|intros ?].
  apply quiet_create_points.
Qed.

Lemma quiet_collect_all config syncs : ∀ points,
  quiet (collect_all w args config syncs points).
Proof.
  induction syncs as [|[name sync] syncs IH]; intros points; cbn [collect_all].
  - apply emits_ret.
  - apply emits_bind; [apply quiet_collect|intros ?; apply IH].
Qed.

Lemma quiet_client_write_points influx points :
  quiet (client_write_points w influx points).
Proof.
  intros σ. unfold client_write_points.
  set (m := (emit _ ;; _)).
  assert (Hm : quiet m) by (unfold m; repeat quiet_step).
  apply (Hm σ).
Qed.

Lemma quiet_send_all config items : ∀ points,
  quiet (send_all w args config items points).
Proof.
  induction items as [|[name influx] items IH]; intros points; cbn [send_all].
  - apply emits_ret.
  - apply emits_bind; [apply quiet_info|intros ?].
    apply emits_bind; [|intros ?; apply IH].
    apply emits_try_except.
    + unfold influx_getitem.
      apply emits_bind; [destruct (list_find _ _) as [[??]|]; repeat quiet_step|intros ?].
      apply emits_bind; [repeat quiet_step|intros ?].
      apply emits_bind; [repeat quiet_step|intros ?].
      apply quiet_client_write_points.
    + intros e. destruct (arg_halt_on_send_error args); repeat quiet_step.
Qed.

Lemma quiet_main config : quiet (main w args config).
Proof.
  unfold main. apply emits_bind; [apply quiet_collect_all|intros [|p pts]].
  - apply emits_ret.
  - apply quiet_send_all.
Qed.

Lemma quiet_run_config_files files : quiet (run_config_files w args files).
Proof.
  induction files as [|f files IH]; cbn [run_config_files].
  - apply emits_ret.
  - apply emits_bind; [repeat quiet_step|intros is_file].
    apply emits_bind; [destruct is_file; repeat quiet_step|intros ?].
    apply emits_bind; [repeat quiet_step|intros ?].
    apply emits_bind; [apply quiet_main|intros ?]. apply IH.
Qed.

Lemma quiet_after_pass index elapsed : quiet (after_pass args index elapsed).
Proof.
  unfold after_pass. apply emits_bind; [|intros ?; apply quiet_info].
  destruct (negb _); [|apply quiet_info].
  destruct (negb _); [|apply emits_ret].
  apply emits_bind; [destruct (negb _); repeat quiet_step|intros ?].
  repeat quiet_step.
Qed.

Lemma quiet_pass files index : quiet (pass w args files index).
Proof.
  unfold pass.
  apply emits_bind; [destruct (bool_decide _); repeat quiet_step|intros ?].
  apply emits_bind; [repeat quiet_step|intros ?].
  apply emits_bind; [apply quiet_run_config_files|intros ?].
  apply emits_bind; [repeat quiet_step|intros ?].
  apply emits_bind; [apply quiet_after_pass|intros ?]. apply emits_ret.
Qed.

Lemma quiet_passes fuel files : ∀ index, quiet (passes w args fuel files index).
Proof.
  induction fuel as [|fuel IH]; intros index; cbn [passes];
    destruct (_ || _); try apply emits_ret.
  apply emits_bind; [apply quiet_pass|intros ?; apply IH].
Qed.

End Silent.

(** *** The command line and the passes *)

(** What [check_args] does, check by check. *)
Lemma check_args_run args σ :
  check_args args σ =
  if arg_silent args && arg_verbose args
  then (inl (SystemExit 2),
        complained σ "Cannot use --silent and --verbose at the same time.")
  else if bool_decide (arg_config_dir args ≠ None)
  then (inl (SystemExit 2),
        complained σ "You must give either --config or --config-dir (exactly one of them)")
  else if bool_decide (arg_count args = 0%Z)
  then (inl (SystemExit 2), complained σ "Test run count cannot be zero.")
  else if Qle_bool (arg_wait args) 0
  then (inl (SystemExit 2), complained σ "Wait time must be positive.")
  else (inr (defaulted args), σ).
Proof.
  unfold check_args. rewrite run_bind.
  destruct (arg_silent args && arg_verbose args); [done|].
  rewrite run_ret, run_bind.
  destruct args as [[c|] [d|] count wait silent verbose halt]; cbn; try done.
  all: rewrite run_bind.
  all: destruct (bool_decide (count = 0%Z)); [done|].
  all: rewrite run_ret, run_bind.
  all: by destruct (Qle_bool wait 0).
Qed.

Section PassSteps.
Context (w : World).

Lemma pass_index args files index σ i σ' :
  pass w args files index σ = (inr i, σ') → i = (index + 1)%Z.
Proof.
  unfold pass. rewrite run_bind.
  destruct (bool_decide (arg_count args ≠ 1%Z)); [rewrite run_info|rewrite run_ret].
  all: rewrite run_bind, run_ask; rewrite run_bind.
  all: destruct (run_config_files _ _ _ _) as [[|[]] σ2]; [done|].
  all: rewrite run_bind, run_ask; rewrite run_bind.
  all: destruct (after_pass _ _ _ _) as [[|[]] σ3]; [done|].
  all: rewrite run_ret; by intros [= <- <-].
Qed.

(** One configuration file, step by step. *)
Lemma run_config_file args f rest σ :
  run_config_files w args (f :: rest) σ =
  if isfile w (tick σ) f then
    match load_app_config w (S (tick σ)) f with
    | inl e => (inl e, {| heap := heap σ; tick := 2 + tick σ; trace := trace σ |})
    | inr config =>
        match main w args config
                {| heap := heap σ; tick := 2 + tick σ; trace := trace σ |} with
        | (inl e, σ1) => (inl e, σ1)
        | (inr _, σ1) => run_config_files w args rest σ1
        end
    end
  else (inl (SystemExit 2),
        {| heap := heap σ; tick := 1 + tick σ;
           trace := trace σ ++ [PrintErr ("Cannot open " +:+ f)] |}).
Proof.
  cbn [run_config_files]. rewrite run_bind, run_ask. cbn [heap tick trace].
  rewrite run_bind. destruct (isfile w (tick σ) f); cbn [negb]; [|done].
  rewrite run_ret, run_bind, run_ask_lift. cbn [heap tick trace].
  destruct (load_app_config w _ f) as [|config]; [done|].
  rewrite run_bind. by destruct (main w args config _) as [[|[]] σ1].
Qed.

Lemma run_config_files_app args l1 l2 σ :
  run_config_files w args (l1 ++ l2) σ =
  match run_config_files w args l1 σ with
  | (inl e, σ1) => (inl e, σ1)
  | (inr _, σ1) => run_config_files w args l2 σ1
  end.
Proof.
  revert σ. induction l1 as [|f l1 IH]; intros σ; [done|].
  cbn [app]. rewrite !run_config_file.
  destruct (isfile w (tick σ) f); [|done].
  destruct (load_app_config w _ f) as [|config]; [done|].
  destruct (main w args config _) as [[|[]] σ1]; [done|]. apply IH.
Qed.

End PassSteps.


Section EmitsFiles.
Context (P : event → Prop).

Lemma emits_yml_files dir names : ∀ acc, emits P (yml_files dir names acc).
Proof.
  induction names as [|n names IH]; intros acc; cbn [yml_files].
  - apply emits_ret.
  - destruct (bool_decide _); [|apply IH].
    apply emits_bind; [|intros ?; apply IH].
    unfold path_join. destruct dir; [destruct (_ || _)|]; emits_step.
Qed.

Lemma emits_config_files w args : emits P (config_files w args).
Proof.
  unfold config_files. destruct (arg_config args) as [[|a s]|].
  2: apply emits_ret.
  all: apply emits_bind; [repeat emits_step|intros ?; apply emits_yml_files].
Qed.

End EmitsFiles.




(** X7: [--silent].  With [--silent] the script prints none of its
    progress lines, whatever happens: every event of the run is something
    else than a line of [info]. *)
Theorem silent_script_prints_nothing w fuel parsed σ :
  arg_silent parsed = true →
  ∃ evs, trace (script w fuel parsed σ).2 = trace σ ++ evs ∧
         Forall (λ ev, ¬ is_print ev) evs.
Proof.
  intros Hsilent. unfold script. rewrite run_bind, check_args_run.
  assert (Hrej : ∀ msg, ∃ evs,
    trace (complained σ msg) = trace σ ++ evs ∧ Forall (λ ev, ¬ is_print ev) evs).
  { intros msg. exists [PrintErr msg]. split; [done|].
    constructor; [by intros []|done]. }
  destruct (arg_silent parsed && arg_verbose parsed); [apply Hrej|].
  destruct (bool_decide (arg_config_dir parsed ≠ None)); [apply Hrej|].
  destruct (bool_decide (arg_count parsed = 0%Z)); [apply Hrej|].
  destruct (Qle_bool (arg_wait parsed) 0); [apply Hrej|].
  apply (emits_bind _ (config_files w (defaulted parsed))).
  - apply emits_config_files.
  - intros files. by apply quiet_passes.
Qed.

Lemma silent_script_prints_nothing_witness :
  let parsed := {| arg_config := None; arg_config_dir := None; arg_count := 2;
                   arg_wait := 60; arg_silent := true; arg_verbose := false;
                   arg_halt_on_send_error := false |} in
  ∃ evs, trace (script healthy_world 2 parsed initial_state).2
         = trace initial_state ++ evs ∧
         Forall (λ ev, ¬ is_print ev) evs.
Proof.
  cbv zeta. apply silent_script_prints_nothing. reflexivity.
Defined.

Section PassRun.
Context (w : World).

(** [pass] up to the processing of the configuration files. *)
Lemma pass_run args files index σ :
  pass w args files index σ =
  match run_config_files w args files (pass_started args index σ) with
  | (inl e, σ1) => (inl e, σ1)
  | (inr _, σ1) =>
      match after_pass args (index + 1)
              (clock w (tick σ1) - clock w (tick σ))
              {| heap := heap σ1; tick := S (tick σ1); trace := trace σ1 |} with
      | (inl e, σ2) => (inl e, σ2)
      | (inr _, σ2) => (inr (index + 1)%Z, σ2)
      end
  end.
Proof.
  unfold pass, pass_started. rewrite run_bind.
  destruct (bool_decide (arg_count args ≠ 1%Z)); [rewrite run_info|rewrite run_ret].
  all: rewrite run_bind, run_ask; rewrite run_bind; cbn [heap tick trace].
  all: rewrite ?app_nil_r.
  all: destruct (run_config_files _ _ _ _) as [[|[]] σ1]; [done|].
  all: rewrite run_bind, run_ask; rewrite run_bind; cbn [heap tick trace].
  all: by destruct (after_pass _ _ _ _) as [[|[]] σ2].
Qed.

End PassRun.

(** X11: a positive count.  With a count [n > 0] the loop of passes ends
    within [n] passes: given fuel for the passes that remain, the model
    never runs out of fuel; it ends because the loop condition became
    false or because a pass raised. *)
Theorem positive_count_terminates w args fuel files index σ r σ' :
  (0 < arg_count args)%Z →
  (0 ≤ index ≤ arg_count args)%Z →
  Z.to_nat (arg_count args - index) ≤ fuel →
  passes w args fuel files index σ = (r, σ') →
  r ≠ inr false.
Proof.
  intros Hcount. revert index σ.
  induction fuel as [|fuel IH]; intros index σ Hindex Hfuel; cbn [passes].
  - rewrite bool_decide_eq_false_2 by lia. rewrite bool_decide_eq_false_2 by lia.
    cbn. rewrite run_ret. by intros [= <- <-].
  - rewrite bool_decide_eq_false_2 by lia. cbn [orb].
    case_bool_decide as Hlt.
    + rewrite run_bind.
      destruct (pass w args files index σ) as [[e|i] σ1] eqn:Hpass.
      * by intros [= <- <-].
      * apply pass_index in Hpass as ->. apply IH; lia.
    + rewrite run_ret. by intros [= <- <-].
Qed.

Lemma positive_count_terminates_witness :
  (script healthy_world 2 (example_args 2 60 false) initial_state).1 ≠ inr false.
Proof.
  apply (positive_count_terminates healthy_world
           (defaulted (example_args 2 60 false)) 2 ["syncflux.yml"] 0
           initial_state _
           (script healthy_world 2 (example_args 2 60 false) initial_state).2).
  - reflexivity.
  - cbn. lia.
  - cbn. lia.
  - vm_compute. reflexivity.
Defined.

(** X12: a negative count.  With a negative count the loop of passes never
    ends by itself: however much fuel the model is given, it either runs
    out of it or ends with an exception. *)
Theorem negative_count_runs_forever w args fuel files index σ r σ' :
  (arg_count args < 0)%Z →
  passes w args fuel files index σ = (r, σ') →
  r ≠ inr true.
Proof.
  intros Hcount. revert index σ.
  induction fuel as [|fuel IH]; intros index σ; cbn [passes];
    rewrite bool_decide_eq_true_2 by done; cbn [orb].
  - rewrite run_ret. by intros [= <- <-].
  - rewrite run_bind.
    destruct (pass w args files index σ) as [[e|i] σ1].
    + by intros [= <- <-].
    + apply IH.
Qed.

Lemma negative_count_runs_forever_witness :
  (passes healthy_world (defaulted (example_args (-1) 60 false)) 3
     ["syncflux.yml"] 0 initial_state).1 ≠ inr true.
Proof.
  apply (negative_count_runs_forever healthy_world
           (defaulted (example_args (-1) 60 false)) 3 ["syncflux.yml"] 0
           initial_state _
           (passes healthy_world (defaulted (example_args (-1) 60 false)) 3
              ["syncflux.yml"] 0 initial_state).2).
  - reflexivity.
  - vm_compute. reflexivity.
Defined.

(** X13: a configuration file that does not exist.  When the files before
    it have been processed and [f] is not a file, the pass ends in
    [parser.error]: exit status 2 after the line [Cannot open f]; the
    files after [f] are not looked at, while the points of the files
    before it have been sent already. *)
Theorem missing_file_stops_the_pass w args before f after σ σ1 :
  run_config_files w args before σ = (inr (), σ1) →
  isfile w (tick σ1) f = false →
  run_config_files w args (before ++ f :: after) σ
  = (inl (SystemExit 2),
     {| heap := heap σ1; tick := 1 + tick σ1;
        trace := trace σ1 ++ [PrintErr ("Cannot open " +:+ f)] |}).
Proof.
  intros Hbefore Hfile.
  by rewrite run_config_files_app, Hbefore, run_config_file, Hfile.
Qed.

Lemma missing_file_stops_the_pass_witness :
  run_config_files no_file_world (example_args 1 60 false)
    ([] ++ "syncflux.yml" :: ["other.yml"]) initial_state
  = (inl (SystemExit 2),
     {| heap := []; tick := 1;
        trace := [] ++ [PrintErr ("Cannot open " +:+ "syncflux.yml")] |}).
Proof.
  apply (missing_file_stops_the_pass no_file_world (example_args 1 60 false)
           [] "syncflux.yml" ["other.yml"] initial_state initial_state).
  - reflexivity.
  - reflexivity.
Defined.

(** X14: an exception of [main].  Nothing between [main] and the top of the
    script catches an exception: when [main] raises [e] for a
    configuration file, the remaining files of the pass are skipped, the
    script does not sleep, and the loop of passes ends with [e]. *)
Theorem exception_of_main_ends_the_script w args fuel before f after index σ σ1
    config e σ2 :
  (arg_count args < 0 ∨ index < arg_count args)%Z →
  run_config_files w args before (pass_started args index σ) = (inr (), σ1) →
  isfile w (tick σ1) f = true →
  load_app_config w (S (tick σ1)) f = inr config →
  main w args config {| heap := heap σ1; tick := 2 + tick σ1; trace := trace σ1 |}
    = (inl e, σ2) →
  passes w args (S fuel) (before ++ f :: after) index σ = (inl e, σ2).
Proof.
  intros Hcond Hbefore Hfile Hload Hmain. cbn [passes].
  assert (bool_decide (arg_count args < 0)%Z || bool_decide (index < arg_count args)%Z
          = true) as ->.
  { destruct Hcond; [by rewrite bool_decide_eq_true_2|].
    rewrite (bool_decide_eq_true_2 (index < _)%Z) by done. apply orb_true_r. }
  rewrite run_bind, pass_run, run_config_files_app, Hbefore.
  by rewrite run_config_file, Hfile, Hload, Hmain.
Qed.

Lemma exception_of_main_ends_the_script_witness :
  passes partial_world (defaulted (example_args 2 60 false)) 2
    ([] ++ "syncflux.yml" :: []) 0 initial_state
  = (inl (KeyError "D2"),
     (passes partial_world (defaulted (example_args 2 60 false)) 2
        ["syncflux.yml"] 0 initial_state).2).
Proof.
  apply (exception_of_main_ends_the_script partial_world
           (defaulted (example_args 2 60 false)) 1 [] "syncflux.yml" [] 0
           initial_state
           (pass_started (defaulted (example_args 2 60 false)) 0 initial_state)
           (example_config [example_source "home" "h1" None] ["good"])).
  - right. cbn. lia.
  - reflexivity.
  - reflexivity.
  - reflexivity.
  - vm_compute. reflexivity.
Defined.

Lemma setitem_new {A} (result : list (string * A)) name v :
  name ∉ result.*1 → setitem result name v = result ++ [(name, v)].
Proof. intros Hn. unfold setitem. by rewrite bool_decide_eq_false_2. Qed.

Section LoadDictProofs.
Context {V A : Type} (str : string → V).
Context (scm_load_from_dict : gmap string V → exn + A).

Lemma load_items_run add_name items : ∀ result out,
  NoDup (result.*1 ++ items.*1) →
  load_items str scm_load_from_dict items add_name result = inr out →
  ∃ new, out = result ++ new ∧
    Forall2 (λ item kv, kv.1 = item.1 ∧
               scm_load_from_dict (load_arguments str add_name item.1 item.2)
                 = inr kv.2)
      items new.
Proof.
  induction items as [|[name value] items IH]; intros result out Hnd; cbn.
  - intros [= <-]. exists []. by rewrite app_nil_r.
  - destruct (scm_load_from_dict _) as [e|v] eqn:Hv; [done|].
    assert (Hnew : name ∉ result.*1).
    { apply NoDup_app in Hnd as (_ & Hdisj & _). intros Hin.
      apply (Hdisj _ Hin). apply elem_of_cons. by left. }
    rewrite setitem_new by done. intros Hrun.
    apply IH in Hrun as (new & -> & Hnew').
    + exists ((name, v) :: new). split; [by rewrite <- (assoc_L (++))|].
      by constructor.
    + rewrite fmap_app. cbn. rewrite <- (assoc_L (++)). cbn.
      apply NoDup_app in Hnd as (Hr & Hdisj & Hi).
      apply NoDup_app. split; [done|]. split; [|done].
      intros k Hk. by apply Hdisj.
Qed.

End LoadDictProofs.

(** X16: [_load_dict].  For a dictionary whose keys are distinct, a
    successful load keeps the keys and their order, and stores under each
    key what the loader of the class makes of the entry.  With [add_name]
    the loader sees the key as [name], also when the entry has a [name]
    of its own; without it the loader sees the entry as it is. *)
Theorem load_dict_keeps_keys_and_names {V A : Type} (str : string → V)
    (scm_load_from_dict : gmap string V → exn + A) props_dict add_name result :
  NoDup props_dict.*1 →
  _load_dict str scm_load_from_dict props_dict add_name = inr result →
  result.*1 = props_dict.*1 ∧
  Forall2 (λ item kv,
             scm_load_from_dict
               (if add_name then <["name" := str item.1]> item.2 else item.2)
             = inr kv.2)
    props_dict result.
Proof.
  intros Hnd Hrun.
  apply load_items_run in Hrun as (new & -> & Hnew); [|done]. cbn. split.
  - clear Hnd. induction Hnew as [|[k v] [k' a] items new [Hk _] _ IH]; [done|].
    cbn in *. by rewrite Hk, IH.
  - eapply Forall2_impl; [exact Hnew|]. intros [k v] [k' a] [_ Hload].
    unfold load_arguments in Hload. cbn in *.
    by rewrite (right_id_L ∅ (∪)) in Hload.
Qed.

Lemma load_dict_keeps_keys_and_names_witness :
  let result := [ ("home", example_source "home" "h1" None);
                  ("attic", example_source "attic" "lonely" None) ] in
  result.*1 = example_props.*1 ∧
  Forall2 (λ item kv,
             example_loader
               (if true then <["name" := VStr item.1]> item.2 else item.2)
             = inr kv.2)
    example_props result.
Proof.
  cbv zeta.
  apply (load_dict_keeps_keys_and_names VStr example_loader example_props true).
  - apply (bool_decide_unpack _). vm_compute. exact I.
  - vm_compute. reflexivity.
Defined.


(** X10: the configuration files of an accepted command line.  After the
    checks the list of configuration files is the one file of [--config]
    ([syncflux.yml] when the option is absent); for an empty [--config]
    it is empty, when listing succeeds.  No file of a directory gets into
    the list. *)
Theorem accepted_config_files w args σ args' σ' files σ1 σ2 :
  check_args args σ = (inr args', σ') →
  config_files w args' σ1 = (inr files, σ2) →
  let config := default "syncflux.yml" (arg_config args) in
  files = if bool_decide (config = "") then [] else [config].
Proof.
  intros (_ & Hdir & Hconfig)%check_args_accepted. unfold config_files.
  rewrite Hconfig, Hdir. cbn zeta.
  destruct (default "syncflux.yml" (arg_config args)) as [|a s].
  - rewrite run_bind, run_ask_lift.
    destruct (listdir w (tick σ1) None) as [e|names]; [done|].
    rewrite yml_files_without_dir. destruct (existsb _ _); [done|].
    by intros [= <- <-].
  - rewrite run_ret. by intros [= <- <-].
Qed.

Lemma accepted_config_files_witness :
  let args := example_args 1 60 false in
  let config := default "syncflux.yml" (arg_config args) in
  [ "syncflux.yml" ] = if bool_decide (config = "") then [] else [config].
Proof.
  cbv zeta.
  apply (accepted_config_files healthy_world (example_args 1 60 false) initial_state
           (defaulted (example_args 1 60 false)) initial_state
           ["syncflux.yml"] initial_state initial_state).
  - vm_compute. reflexivity.
  - vm_compute. reflexivity.
Defined.
